(** * Nearest-neighbour classification: [sklearn/neighbors/classification.py]

    A shallow embedding of the prediction code of [KNeighborsClassifier]
    and [RadiusNeighborsClassifier], and the properties of the aggregation
    of neighbour votes into class posteriors.

    Numbers.  The code computes with NumPy doubles.  Here a finite number
    is an exact rational ([Qc]) and the three special values a division
    can produce are kept apart ([PInf], [NInf], [NaN]): rounding is not
    modelled and the two zeros are identified, everything else follows
    IEEE-754 arithmetic as NumPy applies it.  Weights and priors, the
    inputs of the computation, are finite numbers.  What depends on the
    rounding or on the range of the doubles is stated for exact
    arithmetic and said to be; module [Binary64] has the fixed-k
    classifier with the doubles themselves, and shows where the two part.

    Exceptions.  A Python exception is a value of [exn]; a computation that
    can raise returns a [result]. *)

From Stdlib Require Import List ZArith QArith Qcanon Lia Bool Arith PeanoNat Sorted.
From Stdlib Require SpecFloat.
Import ListNotations.

Set Implicit Arguments.

Close Scope Qc_scope.
Close Scope Q_scope.
Open Scope nat_scope.

(** ** Exceptions and the [result] monad *)

Inductive value_error : Type :=
  | no_neighbors_found       (* raised by RadiusNeighborsClassifier.predict *)
  | operands_not_broadcast   (* shape mismatch in an element-wise operation *)
  | weights_length_mismatch  (* np.bincount(x, w) with len(x) <> len(w) *)
  | negative_dimensions      (* np.zeros(n) with n < 0 *)
  | argmax_of_empty.         (* argmax over an axis of length 0 *)

Inductive exn : Type :=
  | ValueError (why : value_error)
  | IndexError
  | CollaboratorError.       (* raised inside a helper of neighbors/base.py *)

Inductive result (A : Type) : Type :=
  | Ok (a : A)
  | Raise (e : exn).

Arguments Ok {A} a.
Arguments Raise {A} e.

Definition bind {A B} (c : result A) (k : A -> result B) : result B :=
  match c with
  | Ok a => k a
  | Raise e => Raise e
  end.

Notation "x <- c ;; k" := (bind c (fun x => k))
  (at level 61, c at next level, right associativity).

Fixpoint mapM {A B} (f : A -> result B) (l : list A) : result (list B) :=
  match l with
  | [] => Ok []
  | a :: l' => b <- f a ;; bs <- mapM f l' ;; Ok (b :: bs)
  end.

(** ** NumPy numbers and arrays *)

Module Np.

Inductive num : Type :=
  | Fin (q : Qc)
  | PInf
  | NInf
  | NaN.

Definition isnan (a : num) : bool :=
  match a with NaN => true | _ => false end.

(** The infinity whose sign is that of a number compared with zero by [c];
    [Eq] is the indeterminate form. *)
Definition signed_inf (c : comparison) : num :=
  match c with
  | Gt => PInf
  | Lt => NInf
  | Eq => NaN
  end.

Definition add (a b : num) : num :=
  match a, b with
  | NaN, _ | _, NaN => NaN
  | Fin x, Fin y => Fin (x + y)%Qc
  | PInf, NInf | NInf, PInf => NaN
  | PInf, _ | _, PInf => PInf
  | NInf, _ | _, NInf => NInf
  end.

Definition mul (a b : num) : num :=
  match a, b with
  | NaN, _ | _, NaN => NaN
  | Fin x, Fin y => Fin (x * y)%Qc
  | PInf, Fin y | Fin y, PInf => signed_inf (y ?= 0)%Qc
  | NInf, Fin y | Fin y, NInf => signed_inf (0 ?= y)%Qc
  | PInf, PInf | NInf, NInf => PInf
  | PInf, NInf | NInf, PInf => NInf
  end.

Definition is_zero (q : Qc) : bool :=
  match (q ?= 0)%Qc with Eq => true | _ => false end.

Definition div (a b : num) : num :=
  match a, b with
  | NaN, _ | _, NaN => NaN
  | Fin x, Fin y => if is_zero y then signed_inf (x ?= 0)%Qc else Fin (x / y)%Qc
  | Fin _, PInf | Fin _, NInf => Fin 0%Qc
  | PInf, PInf | PInf, NInf | NInf, PInf | NInf, NInf => NaN
  | PInf, Fin y => match (y ?= 0)%Qc with Lt => NInf | _ => PInf end
  | NInf, Fin y => match (y ?= 0)%Qc with Lt => PInf | _ => NInf end
  end.

(** [a <= b] on doubles: false as soon as one side is NaN. *)
Definition leb (a b : num) : bool :=
  match a, b with
  | NaN, _ | _, NaN => false
  | NInf, _ | _, PInf => true
  | PInf, _ | _, NInf => false
  | Fin x, Fin y => match (x ?= y)%Qc with Gt => false | _ => true end
  end.

Definition of_nat (n : nat) : Qc := Q2Qc (inject_Z (Z.of_nat n)).

(** [a.sum()] of a one-dimensional array. *)
Definition sum (a : list num) : num := fold_left add a (Fin 0%Qc).

(** [a[i] = f(a[i])]; the callers check the index first. *)
Fixpoint update {A} (a : list A) (i : nat) (f : A -> A) : list A :=
  match a, i with
  | [], _ => []
  | x :: a', O => f x :: a'
  | x :: a', S j => x :: update a' j f
  end.

(** [a[ind]] for an index array [ind] (indices are not negative). *)
Definition getitem {A} (a : list A) (i : nat) : result A :=
  match nth_error a i with
  | Some x => Ok x
  | None => Raise IndexError
  end.

Definition take {A} (a : list A) (ind : list nat) : result (list A) :=
  mapM (getitem a) ind.

(** [np.bincount(x)] and [np.bincount(x, weights)]: one bin per value up to
    the largest, each occurrence counted (or its weight added) in turn. *)
Definition n_bins (x : list nat) : nat :=
  match x with
  | [] => 0
  | _ => S (list_max x)
  end.

Definition bincount (x : list nat) : list nat :=
  fold_left (fun ans v => update ans v S) x (repeat 0 (n_bins x)).

Definition bincount_weights (x : list nat) (w : list Qc) : result (list Qc) :=
  if length x =? length w
  then Ok (fold_left (fun ans vw => update ans (fst vw) (fun a => a + snd vw)%Qc)
                     (combine x w) (repeat 0%Qc (n_bins x)))
  else Raise (ValueError weights_length_mismatch).

(** [a.argmax()]: the first index of the maximum; a NaN counts as the
    maximum and ends the scan. *)
Fixpoint argmax_scan (ip : list num) (i : nat) (mp : num) (max_ind : nat) : nat :=
  match ip with
  | [] => max_ind
  | x :: ip' =>
      if leb x mp then argmax_scan ip' (S i) mp max_ind
      else if isnan x then i
      else argmax_scan ip' (S i) x i
  end.

Definition argmax (a : list num) : result nat :=
  match a with
  | [] => Raise (ValueError argmax_of_empty)
  | x :: ip => if isnan x then Ok 0 else Ok (argmax_scan ip 1 x 0)
  end.

(** Broadcasting of a trailing dimension of length [c] against a vector of
    length [m]. *)
Definition broadcast_shape (c m : nat) : result nat :=
  if c =? m then Ok c
  else if m =? 1 then Ok c
  else if c =? 1 then Ok m
  else Raise (ValueError operands_not_broadcast).

Definition stretch {A} (c : nat) (v : list A) : list A :=
  match v with
  | [a] => repeat a c
  | _ => v
  end.

Definition zip_with {A B C} (f : A -> B -> C) (a : list A) (b : list B) : list C :=
  map (fun ab => f (fst ab) (snd ab)) (combine a b).

(** [M op v] for a matrix [M] with [c] columns (given by its rows) and a
    vector [v]; returns the number of columns of the outcome with it. *)
Definition broadcast (op : num -> num -> num) (c : nat)
    (M : list (list num)) (v : list num) : result (nat * list (list num)) :=
  c' <- broadcast_shape c (length v) ;;
  Ok (c', map (fun row => zip_with op (stretch c' row) (stretch c' v)) M).

(** [(M.T / M.sum(axis=1)).T] *)
Definition divide_rows_by_sum (M : list (list num)) : list (list num) :=
  map (fun row => map (fun a => div a (sum row)) row) M.

End Np.

Import Np.

Definition matrix (A : Type) : Type := list (list A).

(** ** The helpers of [neighbors/base.py]

    [_get_weights] and [_get_class_prior] belong to [neighbors/base.py],
    which is outside the sources at hand.  A configured option ([weights],
    [class_prior]) is represented by what the helper computes for it: the
    weights of a distance array ([None] standing for uniform weights), and
    the prior vector of a training-label array.  Either call may raise. *)

Definition weights_option : Type := matrix Qc -> result (option (matrix Qc)).

Definition _get_weights (dist : matrix Qc) (weights : weights_option)
  : result (option (matrix Qc)) := weights dist.

Definition class_prior_option : Type := list nat -> result (list Qc).

Definition _get_class_prior (y : list nat) (class_prior : class_prior_option)
  : result (list Qc) := class_prior y.

(** ['uniform']: [_get_weights] answers [None] and the callers fill in ones. *)
Definition uniform : weights_option := fun _ => Ok None.

(** A weight array computed elsewhere and handed over as it is. *)
Definition given_weights (w : matrix Qc) : weights_option := fun _ => Ok (Some w).

(** An explicit prior vector, one entry per class in increasing label order. *)
Definition explicit_prior (p : list Qc) : class_prior_option := fun _ => Ok p.

(** Modelled from the spec: the ['default'] policy of [_get_class_prior]
    (neighbors/base.py is not among the sources); the prior of a class is
    the number of training labels equal to it divided by the number of
    training labels. *)
Definition default_prior : class_prior_option :=
  fun y => Ok (map (fun c => (of_nat (count_occ Nat.eq_dec y c) / of_nat (length y))%Qc)
                   (seq 0 (n_bins y))).

(** ** The posterior, lines 189-196 and 368-375

    Both classifiers end with the same statements: divide the votes by the
    class counts, multiply by the prior, divide each row by its sum. *)

Definition posterior (n_classes : nat) (probabilities : matrix Qc)
    (y : list nat) (class_prior : class_prior_option) : result (matrix num) :=
  let class_count := bincount y in
  class_prior <- _get_class_prior y class_prior ;;
  p1 <- broadcast div n_classes (map (map Fin) probabilities)
                  (map (fun c => Fin (of_nat c)) class_count) ;;
  p2 <- broadcast mul (fst p1) (snd p1) (map Fin class_prior) ;;
  Ok (divide_rows_by_sum (snd p2)).

(** [self._classes[probabilities.argmax(axis=1)].astype(np.int)] *)
Definition classes_of_argmax (classes : list Z) (probabilities : matrix num)
  : result (list Z) :=
  best <- mapM argmax probabilities ;;
  take classes best.

Definition zeros (n_rows n_cols : nat) : matrix Qc :=
  repeat (repeat 0%Qc n_cols) n_rows.

Definition column {A} (M : matrix A) (i : nat) : result (list A) :=
  mapM (fun row => getitem row i) M.

Definition n_columns {A} (M : matrix A) : nat :=
  match M with
  | [] => 0
  | row :: _ => length row
  end.

(** ** KNeighborsClassifier *)

Module KNeighborsClassifier.

Record t : Type := {
  _y : list nat;            (* training labels, as indices into _classes *)
  _classes : list Z;        (* the distinct labels, ascending *)
  weights : weights_option;
  class_prior : class_prior_option
}.

Definition ones_like (a : matrix nat) : matrix Qc :=
  map (map (fun _ => 1%Qc)) a.

(** [probabilities[all_rows, idx] += w]: row [r] gets [w[r]] added in
    column [idx[r]]. *)
Fixpoint iadd_at (probabilities : matrix Qc) (idx : list nat) (w : list Qc)
  : result (matrix Qc) :=
  match probabilities, idx, w with
  | [], [], [] => Ok []
  | row :: P, c :: idx', x :: w' =>
      if c <? length row
      then P' <- iadd_at P idx' w' ;;
           Ok (update row c (fun a => a + x)%Qc :: P')
      else Raise IndexError
  | _, _, _ => Raise (ValueError operands_not_broadcast)
  end.

(** The loop of lines 186-187 over the columns [cols] of [pred_indices]. *)
Fixpoint vote_loop (cols : list nat) (pred_indices : matrix nat)
    (weights : matrix Qc) (probabilities : matrix Qc) : result (matrix Qc) :=
  match cols with
  | [] => Ok probabilities
  | i :: cols' =>
      idx <- column pred_indices i ;;
      w <- column weights i ;;
      probabilities <- iadd_at probabilities idx (stretch (length idx) w) ;;
      vote_loop cols' pred_indices weights probabilities
  end.

(** The votes of lines 173-187.  The arguments are the outcome of
    [self.kneighbors(X)], one row per sample of [X]. *)
Definition votes (self : t) (neigh_dist : matrix Qc) (neigh_ind : matrix nat)
  : result (matrix Qc) :=
  pred_indices <- mapM (take (_y self)) neigh_ind ;;
  weights <- _get_weights neigh_dist (weights self) ;;
  let weights := match weights with
                 | None => ones_like pred_indices
                 | Some w => w
                 end in
  let probabilities := zeros (length neigh_ind) (length (_classes self)) in
  vote_loop (seq 0 (n_columns pred_indices)) pred_indices weights probabilities.

Definition predict_proba (self : t) (neigh_dist : matrix Qc)
    (neigh_ind : matrix nat) : result (matrix num) :=
  probabilities <- votes self neigh_dist neigh_ind ;;
  posterior (length (_classes self)) probabilities (_y self) (class_prior self).

Definition predict (self : t) (neigh_dist : matrix Qc) (neigh_ind : matrix nat)
  : result (list Z) :=
  probabilities <- predict_proba self neigh_dist neigh_ind ;;
  classes_of_argmax (_classes self) probabilities.

End KNeighborsClassifier.

(** ** RadiusNeighborsClassifier *)

Module RadiusNeighborsClassifier.

Record t : Type := {
  _y : list nat;
  _classes : list Z;
  weights : weights_option;
  class_prior : class_prior_option;
  outlier_label : option Z   (* None unless a label is given *)
}.

(** The truth value of [self.outlier_label] in [if self.outlier_label:]. *)
Definition truthy (label : option Z) : bool :=
  match label with
  | None => false
  | Some z => negb (z =? 0)%Z
  end.

(** Lines 329-344, from row [i] on: the rows without neighbours are
    collected when an outlier label counts as given, and the first of them
    raises otherwise. *)
Fixpoint collect_outliers (i : nat) (pred_labels : matrix nat) : list nat :=
  match pred_labels with
  | [] => []
  | pl :: rest =>
      if length pl <? 1 then i :: collect_outliers (S i) rest
      else collect_outliers (S i) rest
  end.

Fixpoint check_neighbors (pred_labels : matrix nat) : result unit :=
  match pred_labels with
  | [] => Ok tt
  | pl :: rest =>
      if length pl <? 1 then Raise (ValueError no_neighbors_found)
      else check_neighbors rest
  end.

Definition find_outliers (self : t) (pred_labels : matrix nat) : result (list nat) :=
  if truthy (outlier_label self)
  then Ok (collect_outliers 0 pred_labels)
  else _ <- check_neighbors pred_labels ;; Ok [].

(** Lines 363-366: the weighted counts of one row, padded to [n_classes]. *)
Definition padded_bincount (n_classes : nat) (pi : list nat) (w : list Qc)
  : result (list Qc) :=
  unpadded_probs <- bincount_weights pi w ;;
  if length unpadded_probs <=? n_classes
  then Ok (unpadded_probs ++ repeat 0%Qc (n_classes - length unpadded_probs))
  else Raise (ValueError negative_dimensions).

(** The loop of lines 358-366 from row [i] on; a row the loop skips keeps
    the zeros it was created with. *)
Fixpoint vote_loop (n_classes : nat) (weights : matrix Qc) (i : nat)
    (pred_labels : matrix nat) : result (matrix Qc) :=
  match pred_labels with
  | [] => Ok []
  | pi :: rest =>
      row <- (if length pi <? 1 then Ok (repeat 0%Qc n_classes)
              else w <- getitem weights i ;; padded_bincount n_classes pi w) ;;
      rows <- vote_loop n_classes weights (S i) rest ;;
      Ok (row :: rows)
  end.

(** [preds[outliers] = label] *)
Definition impose (preds : list Z) (outliers : list nat) (label : Z) : list Z :=
  fold_left (fun p i => update p i (fun _ => label)) outliers preds.

(** Lines 346-375: the weights, the votes and their posterior, for every
    row of [pred_labels]. *)
Definition probabilities (self : t) (neigh_dist : matrix Qc)
    (pred_labels : matrix nat) : result (matrix num) :=
  weights <- _get_weights neigh_dist (weights self) ;;
  let weights := match weights with
                 | None => map (fun row => repeat 1%Qc (length row)) neigh_dist
                 | Some w => w
                 end in
  probabilities <- vote_loop (length (_classes self)) weights 0 pred_labels ;;
  posterior (length (_classes self)) probabilities (_y self) (class_prior self).

(** The arguments are the outcome of [self.radius_neighbors(X)], one row
    per sample of [X]. *)
Definition predict (self : t) (neigh_dist : matrix Qc) (neigh_ind : matrix nat)
  : result (list Z) :=
  pred_labels <- mapM (take (_y self)) neigh_ind ;;
  outliers <- find_outliers self pred_labels ;;
  probabilities <- probabilities self neigh_dist pred_labels ;;
  preds <- classes_of_argmax (_classes self) probabilities ;;
  match outlier_label self with
  | Some label => if truthy (outlier_label self)
                  then Ok (impose preds outliers label)
                  else Ok preds
  | None => Ok preds
  end.

End RadiusNeighborsClassifier.

(** ** The fixed-k classifier in binary64

    The statements of [KNeighborsClassifier] once more, with the numbers
    NumPy computes with: IEEE-754 doubles, every operation rounded to
    nearest-even ([SpecFloat] at precision 53 and exponent bound 1024),
    with overflow to infinity, underflow and signed zeros.  A row is
    summed from left to right (rows of two entries are, in every NumPy). *)

Module Binary64.

Definition f64 : Type := SpecFloat.spec_float.

Definition add : f64 -> f64 -> f64 := SpecFloat.SFadd 53 1024.
Definition mul : f64 -> f64 -> f64 := SpecFloat.SFmul 53 1024.
Definition div : f64 -> f64 -> f64 := SpecFloat.SFdiv 53 1024.
Definition leb : f64 -> f64 -> bool := SpecFloat.SFleb.
Definition eqb : f64 -> f64 -> bool := SpecFloat.SFeqb.

Definition isnan (a : f64) : bool :=
  match a with SpecFloat.S754_nan => true | _ => false end.

Definition zero : f64 := SpecFloat.S754_zero false.

(** The double of an integer, and the double [2^e]. *)
Definition of_Z (z : Z) : f64 := SpecFloat.binary_normalize 53 1024 z 0 false.
Definition of_nat (n : nat) : f64 := of_Z (Z.of_nat n).

Definition sum (a : list f64) : f64 := fold_left add a zero.

Fixpoint argmax_scan (ip : list f64) (i : nat) (mp : f64) (max_ind : nat) : nat :=
  match ip with
  | [] => max_ind
  | x :: ip' =>
      if leb x mp then argmax_scan ip' (S i) mp max_ind
      else if isnan x then i
      else argmax_scan ip' (S i) x i
  end.

Definition argmax (a : list f64) : result nat :=
  match a with
  | [] => Raise (ValueError argmax_of_empty)
  | x :: ip => if isnan x then Ok 0 else Ok (argmax_scan ip 1 x 0)
  end.

Definition broadcast (op : f64 -> f64 -> f64) (c : nat)
    (M : list (list f64)) (v : list f64) : result (nat * list (list f64)) :=
  c' <- Np.broadcast_shape c (length v) ;;
  Ok (c', map (fun row => Np.zip_with op (Np.stretch c' row) (Np.stretch c' v)) M).

Definition divide_rows_by_sum (M : list (list f64)) : list (list f64) :=
  map (fun row => map (fun a => div a (sum row)) row) M.

Definition weights_option : Type :=
  list (list f64) -> result (option (list (list f64))).

Definition class_prior_option : Type := list nat -> result (list f64).

Definition uniform : weights_option := fun _ => Ok None.

Definition given_weights (w : list (list f64)) : weights_option :=
  fun _ => Ok (Some w).

(** Modelled from the spec: the ['default'] policy of [_get_class_prior]
    (neighbors/base.py is not among the sources), the count of each class
    divided by the number of training labels, in doubles. *)
Definition default_prior : class_prior_option :=
  fun y => Ok (map (fun c => div (of_nat (count_occ Nat.eq_dec y c))
                                 (of_nat (length y)))
                   (seq 0 (Np.n_bins y))).

Record t : Type := {
  _y : list nat;
  _classes : list Z;
  weights : weights_option;
  class_prior : class_prior_option
}.

Definition ones_like (a : list (list nat)) : list (list f64) :=
  map (map (fun _ => of_nat 1)) a.

Definition zeros (n_rows n_cols : nat) : list (list f64) :=
  repeat (repeat zero n_cols) n_rows.

Fixpoint iadd_at (probabilities : list (list f64)) (idx : list nat)
    (w : list f64) : result (list (list f64)) :=
  match probabilities, idx, w with
  | [], [], [] => Ok []
  | row :: P, c :: idx', x :: w' =>
      if c <? length row
      then P' <- iadd_at P idx' w' ;;
           Ok (Np.update row c (fun a => add a x) :: P')
      else Raise IndexError
  | _, _, _ => Raise (ValueError operands_not_broadcast)
  end.

Fixpoint vote_loop (cols : list nat) (pred_indices : list (list nat))
    (weights : list (list f64)) (probabilities : list (list f64))
  : result (list (list f64)) :=
  match cols with
  | [] => Ok probabilities
  | i :: cols' =>
      idx <- mapM (fun row => Np.getitem row i) pred_indices ;;
      w <- mapM (fun row => Np.getitem row i) weights ;;
      probabilities <- iadd_at probabilities idx (Np.stretch (length idx) w) ;;
      vote_loop cols' pred_indices weights probabilities
  end.

Definition votes (self : t) (neigh_dist : list (list f64))
    (neigh_ind : list (list nat)) : result (list (list f64)) :=
  pred_indices <- mapM (Np.take (_y self)) neigh_ind ;;
  weights <- weights self neigh_dist ;;
  let weights := match weights with
                 | None => ones_like pred_indices
                 | Some w => w
                 end in
  let n_columns := match pred_indices with
                   | [] => 0
                   | row :: _ => length row
                   end in
  vote_loop (seq 0 n_columns) pred_indices weights
            (zeros (length neigh_ind) (length (_classes self))).

Definition posterior (n_classes : nat) (probabilities : list (list f64))
    (y : list nat) (class_prior : class_prior_option)
  : result (list (list f64)) :=
  let class_count := Np.bincount y in
  class_prior <- class_prior y ;;
  p1 <- broadcast div n_classes probabilities (map of_nat class_count) ;;
  p2 <- broadcast mul (fst p1) (snd p1) class_prior ;;
  Ok (divide_rows_by_sum (snd p2)).

Definition classes_of_argmax (classes : list Z) (probabilities : list (list f64))
  : result (list Z) :=
  best <- mapM argmax probabilities ;;
  Np.take classes best.

Definition predict_proba (self : t) (neigh_dist : list (list f64))
    (neigh_ind : list (list nat)) : result (list (list f64)) :=
  probabilities <- votes self neigh_dist neigh_ind ;;
  posterior (length (_classes self)) probabilities (_y self) (class_prior self).

Definition predict (self : t) (neigh_dist : list (list f64))
    (neigh_ind : list (list nat)) : result (list Z) :=
  probabilities <- predict_proba self neigh_dist neigh_ind ;;
  classes_of_argmax (_classes self) probabilities.

(** Plain normalised voting: [votes[c] / sum(votes)], and the labels
    chosen from it. *)
Definition plain_voting (votes : list (list f64)) : list (list f64) :=
  divide_rows_by_sum votes.

End Binary64.

(** * Specification vocabulary *)

Definition Qc_sum (l : list Qc) : Qc := fold_right Qcplus 0%Qc l.

(** The sum of the weights of the neighbour occurrences labelled [c]. *)
Definition class_weight (c : nat) (labels : list nat) (w : list Qc) : Qc :=
  Qc_sum (map snd (filter (fun lx => fst lx =? c) (combine labels w))).

(** The vote vector of one neighbour set, and of a batch of them. *)
Definition class_votes (n_classes : nat) (labels : list nat) (w : list Qc)
  : list Qc :=
  map (fun c => class_weight c labels w) (seq 0 n_classes).

Definition batch_votes (n_classes : nat) (labels : matrix nat) (w : matrix Qc)
  : matrix Qc :=
  map (fun lw => class_votes n_classes (fst lw) (snd lw)) (combine labels w).

(** The number of training labels equal to [c]. *)
Definition class_count_of (y : list nat) (c : nat) : nat :=
  count_occ Nat.eq_dec y c.

(** The training labels are the indices of [n_classes] classes, each of
    them present: what fitting establishes for [_y] and [_classes]. *)
Definition encoded_labels (n_classes : nat) (y : list nat) : Prop :=
  Forall (fun l => l < n_classes) y /\
  forall c, c < n_classes -> 0 < class_count_of y c.

Definition rows_of_length {A} (n : nat) (M : matrix A) : Prop :=
  Forall (fun row => length row = n) M.

Definition same_shape {A B} (M : matrix A) (N : matrix B) : Prop :=
  Forall2 (fun r s => length r = length s) M N.

(** [adjusted[c] = votes[c] / classCount[c] * prior[c]] and
    [probability[c] = adjusted[c] / sum(adjusted)]. *)
Definition adjusted (n_classes : nat) (y : list nat) (prior votes : list Qc)
  : list Qc :=
  map (fun c => (nth c votes 0 / of_nat (class_count_of y c) * nth c prior 0)%Qc)
      (seq 0 n_classes).

Definition normalized (a : list Qc) : list Qc :=
  map (fun x => (x / Qc_sum a)%Qc) a.

(** Plain normalised voting: [probability[c] = votes[c] / sum(votes)]. *)
Definition plain_voting (votes : matrix Qc) : matrix num :=
  divide_rows_by_sum (map (map Fin) votes).

(** Index [j] holds a maximum of [row]; index [m] holds its first one. *)
Definition maximal (row : list num) (j : nat) : Prop :=
  j < length row /\
  forall i, i < length row -> leb (nth i row NaN) (nth j row NaN) = true.

Definition first_maximal (row : list num) (m : nat) : Prop :=
  maximal row m /\
  forall j, j < m -> leb (nth m row NaN) (nth j row NaN) = false.

(** The estimators of the docstrings, fitted on [X = [[0], [1], [2], [3]]]
    and [y = [0, 0, 1, 1]]. *)
Definition example_knn (cp : class_prior_option) : KNeighborsClassifier.t :=
  {| KNeighborsClassifier._y := [0; 0; 1; 1];
     KNeighborsClassifier._classes := [0%Z; 1%Z];
     KNeighborsClassifier.weights := uniform;
     KNeighborsClassifier.class_prior := cp |}.

Definition example_radius (w : weights_option) (cp : class_prior_option)
    (label : option Z) : RadiusNeighborsClassifier.t :=
  {| RadiusNeighborsClassifier._y := [0; 0; 1; 1];
     RadiusNeighborsClassifier._classes := [0%Z; 1%Z];
     RadiusNeighborsClassifier.weights := w;
     RadiusNeighborsClassifier.class_prior := cp;
     RadiusNeighborsClassifier.outlier_label := label |}.

(** A radius query on a fitted estimator: at least one class, encoded
    training labels, neighbour indices that point into the training
    labels, weights of the shape of the neighbour array (the distances
    have that shape when the weights are uniform), and a prior vector
    with one entry per class. *)
Definition radius_query_ok (self : RadiusNeighborsClassifier.t)
    (neigh_dist : matrix Qc) (neigh_ind : matrix nat) (prior : list Qc) : Prop :=
  let y := RadiusNeighborsClassifier._y self in
  let C := length (RadiusNeighborsClassifier._classes self) in
  0 < C /\
  encoded_labels C y /\
  Forall (Forall (fun i => i < length y)) neigh_ind /\
  (exists wopt,
     RadiusNeighborsClassifier.weights self neigh_dist = Ok wopt /\
     same_shape neigh_ind (match wopt with
                           | None => neigh_dist
                           | Some w => w
                           end)) /\
  RadiusNeighborsClassifier.class_prior self y = Ok prior /\
  length prior = C.

(** The same estimator constructed with another [outlier_label]. *)
Definition with_outlier_label (self : RadiusNeighborsClassifier.t)
    (label : option Z) : RadiusNeighborsClassifier.t :=
  {| RadiusNeighborsClassifier._y := RadiusNeighborsClassifier._y self;
     RadiusNeighborsClassifier._classes := RadiusNeighborsClassifier._classes self;
     RadiusNeighborsClassifier.weights := RadiusNeighborsClassifier.weights self;
     RadiusNeighborsClassifier.class_prior := RadiusNeighborsClassifier.class_prior self;
     RadiusNeighborsClassifier.outlier_label := label |}.

(** A fixed-k query on a fitted estimator: at least one class, encoded
    training labels, [k] valid neighbour indices per sample, a prior
    vector with one entry per class, and [W] the weights the votes are
    taken with: those [_get_weights] returns, of the shape of the
    neighbour array, or ones when it returns [None]. *)
Definition knn_query_ok (self : KNeighborsClassifier.t)
    (neigh_dist : matrix Qc) (neigh_ind : matrix nat) (W : matrix Qc)
    (prior : list Qc) (k : nat) : Prop :=
  let y := KNeighborsClassifier._y self in
  let C := length (KNeighborsClassifier._classes self) in
  0 < C /\
  encoded_labels C y /\
  Forall (Forall (fun i => i < length y)) neigh_ind /\
  rows_of_length k neigh_ind /\
  same_shape neigh_ind W /\
  (KNeighborsClassifier.weights self neigh_dist = Ok (Some W) \/
   KNeighborsClassifier.weights self neigh_dist = Ok None /\
   Forall (Forall (fun x => x = 1%Qc)) W) /\
  KNeighborsClassifier.class_prior self y = Ok prior /\
  length prior = C.

(** The posterior of one row of votes, as [posterior] computes it for
    encoded training labels and the prior vector [prior]. *)
Definition posterior_row (n_classes : nat) (y : list nat) (prior votes : list Qc)
  : list num :=
  map (fun a => div (Fin a) (Fin (Qc_sum (adjusted n_classes y prior votes))))
      (adjusted n_classes y prior votes).

(** The integers of a C long (64 bits), the type [astype(np.int)] gives
    the predictions: storing an outlier label into them needs one. *)
Definition fits_c_long (z : Z) : Prop := (- 2 ^ 63 <= z < 2 ^ 63)%Z.

Definition label_fits (label : option Z) : Prop :=
  match label with
  | None => True
  | Some z => fits_c_long z
  end.



(** The rational [a/b], for concrete inputs. *)
Definition frac (a : Z) (b : positive) : Qc := Q2Qc (a # b).

(** The loop of lines 186-187 as one row of [probabilities] sees it:
    column after column, the weight of the neighbour is added in the slot
    of its label. *)
Fixpoint row_loop (cols : list nat) (labels : list nat) (w : list Qc)
    (votes : list Qc) : result (list Qc) :=
  match cols with
  | [] => Ok votes
  | i :: cols' =>
      c <- getitem labels i ;;
      x <- getitem w i ;;
      if c <? length votes
      then row_loop cols' labels w (update votes c (fun a => a + x)%Qc)
      else Raise IndexError
  end.

(** * Arrays: updates, counts, sums *)

Lemma update_length {A} (a : list A) i f : length (update a i f) = length a.
Proof.
  revert i; induction a as [|x a IH]; intros [|i]; simpl; auto.
Qed.

Lemma update_map_seq {A} (f : nat -> A) g m : forall s v,
  update (map f (seq s m)) v g =
  map (fun c => if c =? s + v then g (f c) else f c) (seq s m).
Proof.
  induction m as [|m IH]; intros s v; simpl; [now destruct v|].
  destruct v as [|v]; simpl.
  - rewrite Nat.add_0_r, Nat.eqb_refl. f_equal.
    apply map_ext_in. intros c Hc. apply in_seq in Hc.
    destruct (Nat.eqb_spec c s); [lia | reflexivity].
  - destruct (Nat.eqb_spec s (s + S v)); [lia|]. f_equal.
    rewrite IH. apply map_ext. intros c.
    now replace (S s + v) with (s + S v) by lia.
Qed.

Lemma repeat_map_seq {A} (a : A) m : repeat a m = map (fun _ => a) (seq 0 m).
Proof.
  generalize 0. induction m as [|m IH]; intros s; simpl; [reflexivity|].
  now rewrite (IH (S s)).
Qed.

(** Updating by key, one element after the other, is a fold per slot. *)
Lemma fold_update_keys {A X} (key : X -> nat) (step : X -> A -> A) m :
  forall (l : list X) (f : nat -> A),
  fold_left (fun ans x => update ans (key x) (step x)) l (map f (seq 0 m)) =
  map (fun c => fold_left (fun a x => if c =? key x then step x a else a) l (f c))
      (seq 0 m).
Proof.
  induction l as [|x l IH]; intros f; simpl; [reflexivity|].
  rewrite update_map_seq. simpl. now rewrite IH.
Qed.

Lemma count_fold (y : list nat) c : forall n,
  fold_left (fun a x => if c =? x then S a else a) y n = n + class_count_of y c.
Proof.
  unfold class_count_of.
  induction y as [|x y IH]; intros n; simpl; [lia|].
  rewrite IH. destruct (Nat.eqb_spec c x) as [->|Hne].
  - destruct (Nat.eq_dec x x); [lia | congruence].
  - destruct (Nat.eq_dec x c); [congruence | lia].
Qed.

Lemma bincount_counts (y : list nat) :
  bincount y = map (class_count_of y) (seq 0 (n_bins y)).
Proof.
  unfold bincount. rewrite repeat_map_seq.
  rewrite (fold_update_keys (fun v => v) (fun _ => S)).
  apply map_ext. intros c. now rewrite count_fold.
Qed.

Lemma weight_fold c : forall (lw : list (nat * Qc)) (a : Qc),
  fold_left (fun a vw => if c =? fst vw then (a + snd vw)%Qc else a) lw a =
  (a + Qc_sum (map snd (filter (fun lx => fst lx =? c) lw)))%Qc.
Proof.
  induction lw as [|[l x] lw IH]; intros a; simpl.
  - now rewrite Qcplus_0_r.
  - rewrite IH. rewrite (Nat.eqb_sym c l).
    destruct (l =? c); simpl; [now rewrite Qcplus_assoc | reflexivity].
Qed.

Lemma fold_update_votes m (labels : list nat) (w : list Qc) :
  fold_left (fun ans vw => update ans (fst vw) (fun a => a + snd vw)%Qc)
            (combine labels w) (repeat 0%Qc m) = class_votes m labels w.
Proof.
  rewrite repeat_map_seq.
  rewrite (fold_update_keys fst (fun vw a => (a + snd vw)%Qc)).
  apply map_ext. intros c. rewrite weight_fold. apply Qcplus_0_l.
Qed.

Lemma class_weight_absent c : forall labels w,
  ~ In c labels -> class_weight c labels w = 0%Qc.
Proof.
  unfold class_weight.
  induction labels as [|l labels IH]; intros [|x w] Hc; simpl; try reflexivity.
  destruct (Nat.eqb_spec l c) as [->|Hne]; simpl.
  - exfalso. apply Hc. now left.
  - apply IH. intros Hin. apply Hc. now right.
Qed.

Lemma n_bins_bound (x : list nat) l : In l x -> l < n_bins x.
Proof.
  intros Hin. unfold n_bins. destruct x as [|a x]; [contradiction|].
  pose proof (list_max_le (a :: x) (list_max (a :: x))) as [Hmax _].
  specialize (Hmax (Nat.le_refl _)).
  rewrite Forall_forall in Hmax. specialize (Hmax l Hin). lia.
Qed.

Lemma n_bins_le C (x : list nat) : Forall (fun l => l < C) x -> n_bins x <= C.
Proof.
  intros Hx. unfold n_bins. destruct x as [|a x]; [lia|].
  destruct (list_max_lt (l:=a :: x) C ltac:(discriminate)) as [_ H].
  apply H in Hx. lia.
Qed.

Lemma class_votes_length C labels w : length (class_votes C labels w) = C.
Proof.
  unfold class_votes. now rewrite length_map, length_seq.
Qed.

Lemma class_votes_pad C labels w :
  Forall (fun l => l < C) labels ->
  class_votes (n_bins labels) labels w ++ repeat 0%Qc (C - n_bins labels) =
  class_votes C labels w.
Proof.
  intros Hl. pose proof (n_bins_le Hl) as Hle.
  unfold class_votes at 2.
  replace C with (n_bins labels + (C - n_bins labels)) at 2 by lia.
  rewrite seq_app, map_app. f_equal. simpl.
  generalize (n_bins_bound labels).
  generalize (n_bins labels) as s, (C - n_bins labels) as m. clear.
  intros s m; revert s. induction m as [|m IH]; intros s Hs; simpl; [reflexivity|].
  rewrite (IH (S s)) by (intros l Hl; specialize (Hs l Hl); lia).
  f_equal. symmetry. apply class_weight_absent.
  intros Hin. apply Hs in Hin. lia.
Qed.

(** * The vote loops *)

Lemma bind_ok {A B} (c : result A) (k : A -> result B) b :
  bind c k = Ok b -> exists a, c = Ok a /\ k a = Ok b.
Proof.
  destruct c as [a|e]; simpl; [eauto | discriminate].
Qed.

Lemma mapM_length {A B} (f : A -> result B) : forall l v,
  mapM f l = Ok v -> length v = length l.
Proof.
  induction l as [|a l IH]; simpl; intros v H.
  - now inversion H.
  - apply bind_ok in H as (b & _ & H). apply bind_ok in H as (bs & Hbs & H).
    inversion H. simpl. f_equal. now apply IH.
Qed.

Lemma stretch_same {A} c (v : list A) : length v = c -> stretch c v = v.
Proof.
  destruct v as [|a [|b v]]; simpl; intros <-; reflexivity.
Qed.

Module KNeighborsVotes.
Import KNeighborsClassifier.

Lemma vote_loop_no_rows cols : vote_loop cols [] [] [] = Ok [].
Proof.
  induction cols as [|i cols IH]; simpl; [reflexivity | exact IH].
Qed.

(** The loop over a batch is the loop over each of its rows. *)
Lemma vote_loop_cons cols l labels w W :
  length labels = length W ->
  forall p P p' P',
  row_loop cols l w p = Ok p' ->
  vote_loop cols labels W P = Ok P' ->
  vote_loop cols (l :: labels) (w :: W) (p :: P) = Ok (p' :: P').
Proof.
  intros Hlen. induction cols as [|i cols IH]; intros p P p' P' Hrow Hrest.
  - simpl in *. inversion Hrow. inversion Hrest. reflexivity.
  - simpl in Hrow.
    apply bind_ok in Hrow as (c & Hc & Hrow).
    apply bind_ok in Hrow as (x & Hx & Hrow).
    destruct (c <? length p) eqn:Hin; [|discriminate].
    simpl in Hrest.
    apply bind_ok in Hrest as (idx & Hidx & Hrest).
    apply bind_ok in Hrest as (wc & Hwc & Hrest).
    apply bind_ok in Hrest as (P1 & HP1 & Hrest).
    pose proof (mapM_length _ _ Hidx) as Li.
    pose proof (mapM_length _ _ Hwc) as Lw.
    rewrite stretch_same in HP1 by congruence.
    change (vote_loop (i :: cols) (l :: labels) (w :: W) (p :: P))
      with (idx0 <- column (l :: labels) i ;;
            w0 <- column (w :: W) i ;;
            Q <- iadd_at (p :: P) idx0 (stretch (length idx0) w0) ;;
            vote_loop cols (l :: labels) (w :: W) Q).
    unfold column in *. cbn [mapM]. rewrite Hc, Hx, Hidx, Hwc. cbn [bind].
    rewrite stretch_same by (simpl; congruence).
    simpl. rewrite Hin, HP1. simpl. now apply IH.
Qed.

Lemma row_loop_suffix : forall l2 l1 w1 w2 p,
  length l1 = length w1 -> length l2 = length w2 ->
  Forall (fun c => c < length p) l2 ->
  row_loop (seq (length l1) (length l2)) (l1 ++ l2) (w1 ++ w2) p =
  Ok (fold_left (fun ans vw => update ans (fst vw) (fun a => a + snd vw)%Qc)
                (combine l2 w2) p).
Proof.
  induction l2 as [|c l2 IH]; intros l1 w1 [|x w2] p H1 H2 Hc; simpl in H2;
    try discriminate; [reflexivity|].
  inversion Hc as [|? ? Hc0 Hc']; subst.
  simpl. unfold getitem.
  rewrite nth_error_app2, Nat.sub_diag by lia. simpl.
  rewrite nth_error_app2 by lia.
  replace (length l1 - length w1) with 0 by lia. simpl.
  apply Nat.ltb_lt in Hc0. rewrite Hc0.
  replace (l1 ++ c :: l2) with ((l1 ++ [c]) ++ l2) by now rewrite <- app_assoc.
  replace (w1 ++ x :: w2) with ((w1 ++ [x]) ++ w2) by now rewrite <- app_assoc.
  replace (S (length l1)) with (length (l1 ++ [c]))
    by (rewrite length_app; simpl; lia).
  apply IH.
  - rewrite !length_app. simpl. lia.
  - lia.
  - rewrite update_length. exact Hc'.
Qed.

Lemma row_loop_votes C l w :
  length l = length w -> Forall (fun c => c < C) l ->
  row_loop (seq 0 (length l)) l w (repeat 0%Qc C) = Ok (class_votes C l w).
Proof.
  intros Hlen Hc.
  rewrite <- fold_update_votes.
  apply (@row_loop_suffix l [] [] w); auto.
  now rewrite repeat_length.
Qed.

Lemma vote_loop_votes C k : forall labels W,
  same_shape labels W -> rows_of_length k labels ->
  Forall (Forall (fun c => c < C)) labels ->
  vote_loop (seq 0 k) labels W (zeros (length labels) C) =
  Ok (batch_votes C labels W).
Proof.
  induction 1 as [|l w labels W Hlw Hrest IH]; intros Hk Hc.
  - apply vote_loop_no_rows.
  - inversion Hk; subst. inversion Hc; subst.
    apply vote_loop_cons.
    + eapply Forall2_length; eassumption.
    + now apply row_loop_votes.
    + now apply IH.
Qed.

End KNeighborsVotes.

Module RadiusNeighborsVotes.
Import RadiusNeighborsClassifier.

Lemma padded_bincount_votes C pi w :
  length pi = length w -> Forall (fun c => c < C) pi ->
  padded_bincount C pi w = Ok (class_votes C pi w).
Proof.
  intros Hlen Hc. unfold padded_bincount, bincount_weights.
  rewrite Hlen, Nat.eqb_refl. simpl.
  rewrite fold_update_votes, class_votes_length.
  pose proof (n_bins_le Hc) as Hle. apply Nat.leb_le in Hle. rewrite Hle.
  now rewrite class_votes_pad.
Qed.

Lemma class_votes_empty C w : class_votes C [] w = repeat 0%Qc C.
Proof.
  now rewrite repeat_map_seq.
Qed.

Lemma radius_vote_loop_votes C : forall labels W2 W1,
  same_shape labels W2 ->
  Forall (Forall (fun c => c < C)) labels ->
  vote_loop C (W1 ++ W2) (length W1) labels = Ok (batch_votes C labels W2).
Proof.
  intros labels W2 W1 Hs. revert W1.
  induction Hs as [|l w labels W Hlw Hrest IH]; intros W1 Hc; [reflexivity|].
  inversion Hc as [|? ? Hl Hc']; subst.
  simpl.
  replace (W1 ++ w :: W) with ((W1 ++ [w]) ++ W) by now rewrite <- app_assoc.
  replace (S (length W1)) with (length (W1 ++ [w]))
    by (rewrite length_app; simpl; lia).
  rewrite (IH _ Hc'). unfold batch_votes. simpl.
  destruct l as [|c l]; simpl.
  - now rewrite class_votes_empty.
  - unfold getitem. rewrite <- app_assoc. simpl.
    rewrite nth_error_app2, Nat.sub_diag by lia. simpl.
    rewrite (padded_bincount_votes (pi:=c :: l) w Hlw Hl). reflexivity.
Qed.

End RadiusNeighborsVotes.

(** * Numbers *)

Lemma of_nat_pos n : 0 < n -> (0 < of_nat n)%Qc.
Proof.
  intros Hn. apply Qclt_alt. unfold Qccompare, of_nat, Q2Qc, this.
  rewrite <- Qred_compare. unfold Qcompare. cbn [Qnum Qden inject_Z].
  apply Z.compare_lt_iff. lia.
Qed.

Lemma is_zero_false q : q <> 0%Qc -> is_zero q = false.
Proof.
  intros Hq. unfold is_zero.
  destruct (q ?= 0)%Qc eqn:E; try reflexivity.
  apply Qceq_alt in E. contradiction.
Qed.

Lemma is_zero_true : is_zero 0%Qc = true.
Proof. reflexivity. Qed.

Lemma Qc_pos_neq q : (0 < q)%Qc -> q <> 0%Qc.
Proof.
  intros Hq Heq. subst. now apply Qclt_not_eq in Hq.
Qed.

Lemma div_fin a b : b <> 0%Qc -> div (Fin a) (Fin b) = Fin (a / b)%Qc.
Proof.
  intros Hb. simpl. now rewrite is_zero_false.
Qed.

Lemma fold_add_fin : forall l a,
  fold_left add (map Fin l) (Fin a) = Fin (a + Qc_sum l)%Qc.
Proof.
  induction l as [|x l IH]; intros a; simpl.
  - now rewrite Qcplus_0_r.
  - rewrite IH. now rewrite Qcplus_assoc.
Qed.

Lemma sum_fin l : sum (map Fin l) = Fin (Qc_sum l).
Proof.
  unfold sum. rewrite fold_add_fin. now rewrite Qcplus_0_l.
Qed.

(** * Arrays as functions of the index *)

Lemma list_map_seq {A} (d : A) : forall (a : list A),
  a = map (fun c => nth c a d) (seq 0 (length a)).
Proof.
  induction a as [|x a IH]; simpl; [reflexivity|].
  f_equal. rewrite <- seq_shift, map_map. exact IH.
Qed.

Lemma zip_with_map_seq {A B C} (f : A -> B -> C) (h : nat -> A) (g : nat -> B) m :
  forall s,
  zip_with f (map h (seq s m)) (map g (seq s m)) =
  map (fun c => f (h c) (g c)) (seq s m).
Proof.
  unfold zip_with.
  induction m as [|m IH]; intros s; simpl; [reflexivity|].
  now rewrite IH.
Qed.

Lemma n_bins_encoded C y : encoded_labels C y -> n_bins y = C.
Proof.
  intros [Hlt Hcount].
  pose proof (n_bins_le Hlt) as Hle.
  destruct C as [|C]; [lia|].
  specialize (Hcount C (Nat.lt_succ_diag_r C)).
  apply (proj2 (count_occ_In Nat.eq_dec y C)) in Hcount.
  apply n_bins_bound in Hcount. lia.
Qed.

Lemma bincount_encoded C y :
  encoded_labels C y -> bincount y = map (class_count_of y) (seq 0 C).
Proof.
  intros He. rewrite bincount_counts. now rewrite (n_bins_encoded He).
Qed.

Lemma broadcast_aligned op C M v :
  length v = C -> rows_of_length C M ->
  broadcast op C M v = Ok (C, map (fun row => zip_with op row v) M).
Proof.
  intros Hv HM. unfold broadcast, broadcast_shape.
  rewrite Hv, Nat.eqb_refl. simpl. f_equal. f_equal.
  apply map_ext_in. intros row Hrow.
  unfold rows_of_length in HM. rewrite Forall_forall in HM.
  rewrite !stretch_same; auto.
Qed.

(** * The posterior of well-formed votes *)

Lemma map_fin_seq C (a : list Qc) :
  length a = C -> map Fin a = map (fun c => Fin (nth c a 0%Qc)) (seq 0 C).
Proof.
  intros <-. rewrite <- (map_map (fun c => nth c a 0%Qc) Fin).
  now rewrite <- list_map_seq.
Qed.

Lemma adjusted_row C y prior votes :
  encoded_labels C y -> length votes = C -> length prior = C ->
  zip_with mul
    (zip_with div (map Fin votes)
       (map (fun c => Fin (of_nat (class_count_of y c))) (seq 0 C)))
    (map Fin prior) =
  map Fin (adjusted C y prior votes).
Proof.
  intros [_ Hcount] Hv Hp.
  rewrite (@map_fin_seq C votes Hv), (@map_fin_seq C prior Hp).
  rewrite !zip_with_map_seq. unfold adjusted. rewrite map_map.
  apply map_ext_in. intros c Hc. apply in_seq in Hc.
  rewrite div_fin; [reflexivity|].
  apply Qc_pos_neq, of_nat_pos, Hcount. lia.
Qed.

Lemma zip_with_length {A B C} (f : A -> B -> C) a b :
  length a = length b -> length (zip_with f a b) = length a.
Proof.
  intros H. unfold zip_with. rewrite length_map, length_combine. lia.
Qed.

(** With encoded labels and a prior of one entry per class, the posterior
    of a vote matrix is computed without an exception, row by row. *)
Lemma posterior_rows C P y cp prior :
  encoded_labels C y -> rows_of_length C P ->
  cp y = Ok prior -> length prior = C ->
  posterior C P y cp =
  Ok (map (fun votes =>
             let adj := adjusted C y prior votes in
             map (fun a => div (Fin a) (Fin (Qc_sum adj))) adj) P).
Proof.
  intros He HP Hcp Hp.
  unfold posterior, _get_class_prior. rewrite Hcp. cbn [bind].
  rewrite (bincount_encoded He).
  assert (HP' : rows_of_length C (map (map Fin) P)).
  { unfold rows_of_length in *. rewrite Forall_map.
    eapply Forall_impl; [|exact HP]. intros r Hr. now rewrite length_map. }
  rewrite broadcast_aligned; [|now rewrite !length_map, length_seq|exact HP'].
  cbn [bind fst snd].
  rewrite broadcast_aligned; [|now rewrite length_map| ].
  - cbn [bind fst snd]. unfold divide_rows_by_sum. rewrite !map_map.
    f_equal. apply map_ext_in. intros votes Hin.
    unfold rows_of_length in HP. rewrite Forall_forall in HP.
    rewrite (@adjusted_row C y prior votes He (HP _ Hin) Hp).
    rewrite sum_fin, map_map. reflexivity.
  - unfold rows_of_length in *. rewrite Forall_map.
    eapply Forall_impl; [|exact HP']. intros r Hr.
    rewrite zip_with_length; rewrite ?length_map, ?length_seq; auto.
Qed.

(** * Vote aggregation *)



(** * Class counts *)

(** C9.  When the training labels are not empty and the labels that occur
    are exactly those below [C], [np.bincount] of the training labels has
    [C] entries, each at least 1; dividing a vote matrix of [C] columns by
    it raises no broadcasting error and every quotient is a finite number
    (no division by zero). *)
Theorem class_count_aligned_and_positive (C : nat) (y : list nat) :
  y <> [] -> (forall c, In c y <-> c < C) ->
  length (bincount y) = C /\
  Forall (fun n => 1 <= n) (bincount y) /\
  (forall P, rows_of_length C P ->
     broadcast div C (map (map Fin) P)
               (map (fun n => Fin (of_nat n)) (bincount y)) =
     Ok (C, map (fun votes =>
                   map (fun c => Fin (nth c votes 0 / of_nat (nth c (bincount y) 0%nat))%Qc)
                       (seq 0 C)) P)).
Proof.
  intros _ Hy.
  assert (He : encoded_labels C y).
  { split.
    - apply Forall_forall. intros l Hl. now apply Hy.
    - intros c Hc. apply (proj1 (count_occ_In Nat.eq_dec y c)). now apply Hy. }
  rewrite (bincount_encoded He).
  split; [now rewrite length_map, length_seq|]. split.
  - apply Forall_map, Forall_forall. intros c Hc. apply in_seq in Hc.
    destruct He as [_ Hcount]. specialize (Hcount c). lia.
  - intros P HP.
    rewrite broadcast_aligned.
    + f_equal. f_equal. rewrite map_map. apply map_ext_in. intros votes Hin.
      unfold rows_of_length in HP. rewrite Forall_forall in HP.
      rewrite (@map_fin_seq C votes (HP _ Hin)), map_map.
      rewrite zip_with_map_seq. apply map_ext_in. intros c Hc.
      apply in_seq in Hc.
      rewrite (nth_indep _ 0 (class_count_of y 0))
        by now rewrite length_map, length_seq.
      rewrite (map_nth (class_count_of y)), seq_nth by lia.
      apply div_fin. apply Qc_pos_neq, of_nat_pos.
      destruct He as [_ Hcount]. apply Hcount. lia.
    + now rewrite !length_map, length_seq.
    + unfold rows_of_length in *. rewrite Forall_map.
      eapply Forall_impl; [|exact HP]. intros r Hr. now rewrite length_map.
Qed.

Lemma class_count_aligned_and_positive_witness :
  length (bincount [0; 0; 1; 1; 2]) = 3 /\
  Forall (fun n => 1 <= n) (bincount [0; 0; 1; 1; 2]).
Proof.
  destruct (@class_count_aligned_and_positive 3 [0; 0; 1; 1; 2]) as (Hl & Hp & _).
  - discriminate.
  - intros c. simpl. lia.
  - split; assumption.
Defined.

(** * The normalizer *)



(** * The default prior *)









Module KNeighborsShape.
Import KNeighborsClassifier.

Lemma iadd_at_shape C : forall P idx w P',
  iadd_at P idx w = Ok P' -> rows_of_length C P -> rows_of_length C P'.
Proof.
  induction P as [|row P IH]; intros [|c idx] [|x w] P' H HP;
    simpl in H; try discriminate.
  - inversion H. constructor.
  - destruct (c <? length row); [|discriminate].
    apply bind_ok in H as (P1 & HP1 & H). inversion H; subst.
    inversion HP; subst. constructor.
    + now rewrite update_length.
    + eapply IH; eassumption.
Qed.

Lemma vote_loop_shape C labels W : forall cols P P',
  vote_loop cols labels W P = Ok P' -> rows_of_length C P -> rows_of_length C P'.
Proof.
  induction cols as [|i cols IH]; intros P P' H HP; simpl in H.
  - inversion H. now subst.
  - apply bind_ok in H as (idx & _ & H). apply bind_ok in H as (w & _ & H).
    apply bind_ok in H as (P1 & HP1 & H).
    eapply IH; [exact H|]. eapply iadd_at_shape; eassumption.
Qed.

Lemma zeros_shape n C : rows_of_length C (zeros n C).
Proof.
  unfold rows_of_length, zeros. apply Forall_forall. intros row Hrow.
  apply repeat_spec in Hrow. subst. apply repeat_length.
Qed.

Lemma votes_shape self dist ind V :
  votes self dist ind = Ok V -> rows_of_length (length (_classes self)) V.
Proof.
  unfold votes. intros H.
  apply bind_ok in H as (labels & _ & H). apply bind_ok in H as (w & _ & H).
  eapply vote_loop_shape; [exact H | apply zeros_shape].
Qed.

End KNeighborsShape.


(** * Sums of non-negative numbers *)

Lemma Qc_nonneg_plus a b : (0 <= a)%Qc -> (0 <= b)%Qc -> (0 <= a + b)%Qc.
Proof.
  intros Ha Hb. rewrite <- (Qcplus_0_l 0). now apply Qcplus_le_compat.
Qed.







(** * Well-formed neighbour queries *)

Lemma take_ok {A} (d : A) (a : list A) : forall idx,
  Forall (fun i => i < length a) idx ->
  take a idx = Ok (map (fun i => nth i a d) idx).
Proof.
  unfold take. induction idx as [|i idx IH]; intros H; simpl; [reflexivity|].
  inversion H as [|? ? Hi Hidx]; subst.
  unfold getitem at 1. rewrite (nth_error_nth' a d Hi). cbn [bind].
  now rewrite (IH Hidx).
Qed.

Lemma pred_labels_ok (y : list nat) : forall ind,
  Forall (Forall (fun i => i < length y)) ind ->
  mapM (take y) ind = Ok (map (map (fun i => nth i y 0)) ind).
Proof.
  induction ind as [|row ind IH]; intros H; simpl; [reflexivity|].
  inversion H as [|? ? Hrow Hind]; subst.
  rewrite (@take_ok nat 0 y row Hrow). cbn [bind]. now rewrite (IH Hind).
Qed.

Lemma pred_labels_below C (y : list nat) ind :
  Forall (fun l => l < C) y ->
  Forall (Forall (fun i => i < length y)) ind ->
  Forall (Forall (fun c => c < C)) (map (map (fun i => nth i y 0)) ind).
Proof.
  intros Hy Hind. rewrite Forall_forall in Hy.
  apply Forall_map. eapply Forall_impl; [|exact Hind].
  intros row Hrow. apply Forall_map. eapply Forall_impl; [|exact Hrow].
  intros i Hi. simpl in *. now apply Hy, nth_In.
Qed.

Lemma same_shape_map {A B C} (f : A -> B) (M : matrix A) (N : matrix C) :
  same_shape M N -> same_shape (map (map f) M) N.
Proof.
  induction 1; simpl; constructor; auto. now rewrite length_map.
Qed.

Lemma same_shape_ones (M : matrix nat) :
  same_shape M (KNeighborsClassifier.ones_like M).
Proof.
  induction M; simpl; constructor; auto. now rewrite length_map.
Qed.

Lemma rows_of_length_columns {A} k (M : matrix A) :
  rows_of_length k M -> rows_of_length (n_columns M) M.
Proof.
  intros H. destruct M as [|row M]; [constructor|].
  simpl. inversion H; subst. exact H.
Qed.

Lemma rows_of_length_map {A B} (f : A -> B) k (M : matrix A) :
  rows_of_length k M -> rows_of_length k (map (map f) M).
Proof.
  unfold rows_of_length. intros H. apply Forall_map.
  eapply Forall_impl; [|exact H]. intros r Hr. simpl. now rewrite length_map.
Qed.

(** The votes of a fixed-k query with valid neighbour indices and weights
    of the shape of the neighbour array. *)
Lemma knn_votes (self : KNeighborsClassifier.t) dist ind wopt k :
  let y := KNeighborsClassifier._y self in
  let C := length (KNeighborsClassifier._classes self) in
  let labels := map (map (fun i => nth i y 0)) ind in
  let w := match wopt with
           | None => KNeighborsClassifier.ones_like labels
           | Some w => w
           end in
  Forall (fun l => l < C) y ->
  Forall (Forall (fun i => i < length y)) ind ->
  rows_of_length k ind ->
  KNeighborsClassifier.weights self dist = Ok wopt ->
  (forall w, wopt = Some w -> same_shape ind w) ->
  KNeighborsClassifier.votes self dist ind = Ok (batch_votes C labels w).
Proof.
  intros y C labels w Hy Hind Hk Hw Hshape.
  unfold KNeighborsClassifier.votes, _get_weights.
  fold y. rewrite (@pred_labels_ok y ind Hind). cbn [bind]. rewrite Hw. cbn [bind].
  fold labels. fold w. fold C.
  replace (length ind) with (length labels) by (unfold labels; apply length_map).
  apply KNeighborsVotes.vote_loop_votes.
  - unfold w. destruct wopt as [w0|].
    + apply same_shape_map. now apply Hshape.
    + apply same_shape_ones.
  - apply (@rows_of_length_columns _ k). now apply rows_of_length_map.
  - now apply pred_labels_below.
Qed.

Lemma class_weight_nonneg c : forall l x,
  Forall (fun a => (0 <= a)%Qc) x -> (0 <= class_weight c l x)%Qc.
Proof.
  unfold class_weight.
  induction l as [|a l IH]; intros [|b x] H; simpl; try apply Qcle_refl.
  inversion H; subst.
  destruct (a =? c); simpl; [apply Qc_nonneg_plus|]; auto.
Qed.

Lemma batch_votes_nonneg C : forall labels w,
  Forall (Forall (fun a => (0 <= a)%Qc)) w ->
  Forall (Forall (fun a => (0 <= a)%Qc)) (batch_votes C labels w).
Proof.
  unfold batch_votes.
  induction labels as [|l labels IH]; intros [|x w] H; simpl; try constructor.
  - inversion H; subst. unfold class_votes. apply Forall_map, Forall_forall.
    intros c _. now apply class_weight_nonneg.
  - inversion H; subst. now apply IH.
Qed.

Lemma batch_votes_shape C labels w : rows_of_length C (batch_votes C labels w).
Proof.
  unfold rows_of_length, batch_votes. apply Forall_map, Forall_forall.
  intros lw _. apply class_votes_length.
Qed.

Lemma ones_like_nonneg (M : matrix nat) :
  Forall (Forall (fun a => (0 <= a)%Qc)) (KNeighborsClassifier.ones_like M).
Proof.
  unfold KNeighborsClassifier.ones_like. apply Forall_map, Forall_forall.
  intros row _. apply Forall_map, Forall_forall. intros i _. simpl.
  now apply Qclt_le_weak.
Qed.

Lemma Forall2_map_r {A B} (R : A -> B -> Prop) (f : A -> B) l :
  Forall (fun a => R a (f a)) l -> Forall2 R l (map f l).
Proof.
  induction 1; simpl; constructor; auto.
Qed.


(** * The choice of the label *)

Lemma fin_leb_le x y :
  match (x ?= y)%Qc with Gt => false | _ => true end = true <-> (x <= y)%Qc.
Proof.
  rewrite Qcle_alt. destruct (x ?= y)%Qc; split; intros; congruence.
Qed.

Lemma leb_refl a : isnan a = false -> leb a a = true.
Proof.
  destruct a; simpl; intros H; try reflexivity; try discriminate.
  apply fin_leb_le, Qcle_refl.
Qed.

Lemma leb_trans a b c : leb a b = true -> leb b c = true -> leb a c = true.
Proof.
  destruct a, b, c; simpl; intros H1 H2; try reflexivity; try discriminate.
  apply fin_leb_le in H1, H2. apply fin_leb_le.
  eapply Qcle_trans; eassumption.
Qed.

Lemma leb_total a b :
  isnan a = false -> isnan b = false -> leb a b = false -> leb b a = true.
Proof.
  destruct a, b; simpl; intros Ha Hb H; try reflexivity; try discriminate.
  apply fin_leb_le. apply Qclt_le_weak, Qcnot_le_lt.
  intros Hle. apply fin_leb_le in Hle. congruence.
Qed.

Lemma first_maximal_snoc_keep pre x m :
  first_maximal pre m -> leb x (nth m pre NaN) = true ->
  first_maximal (pre ++ [x]) m.
Proof.
  intros [[Hm Hmax] Hfirst] Hx.
  assert (Hnm : nth m (pre ++ [x]) NaN = nth m pre NaN) by now apply app_nth1.
  repeat split.
  - rewrite length_app. simpl. lia.
  - intros i Hi. rewrite Hnm. rewrite length_app in Hi. simpl in Hi.
    destruct (Nat.eq_dec i (length pre)) as [->|Hne].
    + now rewrite app_nth2, Nat.sub_diag by lia.
    + rewrite app_nth1 by lia. apply Hmax. lia.
  - intros j Hj. rewrite Hnm, app_nth1 by lia. now apply Hfirst.
Qed.

Lemma first_maximal_snoc_new pre x m :
  Forall (fun p => isnan p = false) pre -> isnan x = false ->
  first_maximal pre m -> leb x (nth m pre NaN) = false ->
  first_maximal (pre ++ [x]) (length pre).
Proof.
  intros Hpre Hnx [[Hm Hmax] Hfirst] Hx.
  assert (Hnm : isnan (nth m pre NaN) = false).
  { rewrite Forall_forall in Hpre. now apply Hpre, nth_In. }
  assert (Hn : nth (length pre) (pre ++ [x]) NaN = x)
    by now rewrite app_nth2, Nat.sub_diag by lia.
  repeat split.
  - rewrite length_app. simpl. lia.
  - intros i Hi. rewrite Hn. rewrite length_app in Hi. simpl in Hi.
    destruct (Nat.eq_dec i (length pre)) as [->|Hne].
    + rewrite Hn. now apply leb_refl.
    + rewrite app_nth1 by lia.
      eapply leb_trans; [apply Hmax; lia|]. now apply leb_total.
  - intros j Hj. rewrite Hn, app_nth1 by lia.
    destruct (leb x (nth j pre NaN)) eqn:E; [|reflexivity].
    rewrite <- Hx. symmetry. eapply leb_trans; [exact E|]. now apply Hmax.
Qed.

Lemma argmax_scan_first_maximal : forall ip pre m,
  Forall (fun p => isnan p = false) (pre ++ ip) ->
  first_maximal pre m ->
  first_maximal (pre ++ ip) (argmax_scan ip (length pre) (nth m pre NaN) m).
Proof.
  induction ip as [|x ip IH]; intros pre m Hnan Hfm; simpl.
  - now rewrite app_nil_r.
  - assert (Hpre : Forall (fun p => isnan p = false) pre)
      by (apply Forall_app in Hnan; tauto).
    assert (Hx : isnan x = false).
    { apply Forall_app in Hnan as [_ H]. now inversion H. }
    replace (pre ++ x :: ip) with ((pre ++ [x]) ++ ip) in *
      by now rewrite <- app_assoc.
    replace (S (length pre)) with (length (pre ++ [x]))
      by (rewrite length_app; simpl; lia).
    destruct (leb x (nth m pre NaN)) eqn:E.
    + replace (nth m pre NaN) with (nth m (pre ++ [x]) NaN)
        by (apply app_nth1; apply Hfm).
      apply IH; [exact Hnan|]. now apply first_maximal_snoc_keep.
    + rewrite Hx.
      pose proof (@first_maximal_snoc_new pre x m Hpre Hx Hfm E) as Hnew.
      pose proof (IH (pre ++ [x]) (length pre) Hnan Hnew) as H.
      rewrite (app_nth2 pre [x] NaN (Nat.le_refl _)), Nat.sub_diag in H.
      exact H.
Qed.

Lemma argmax_first_maximal row :
  row <> [] -> Forall (fun p => isnan p = false) row ->
  exists m, argmax row = Ok m /\ first_maximal row m.
Proof.
  intros Hne Hnan. destruct row as [|x ip]; [congruence|].
  assert (Hx : isnan x = false) by now inversion Hnan.
  simpl. rewrite Hx. eexists. split; [reflexivity|].
  apply (@argmax_scan_first_maximal ip [x] 0 Hnan).
  repeat split.
  - simpl. lia.
  - intros [|i] Hi; simpl in *; [now apply leb_refl | lia].
  - intros j Hj. lia.
Qed.

Lemma sorted_nth (classes : list Z) :
  StronglySorted Z.lt classes ->
  forall i j, i < j -> j < length classes ->
  (nth i classes 0 < nth j classes 0)%Z.
Proof.
  induction 1 as [|a l Hl IH Ha]; intros i j Hij Hj; simpl in *; [lia|].
  destruct j as [|j]; [lia|]. destruct i as [|i].
  - rewrite Forall_forall in Ha. apply Ha, nth_In. lia.
  - apply IH; lia.
Qed.

Lemma first_maximal_least row m j :
  first_maximal row m -> maximal row j -> m <= j.
Proof.
  intros [[Hm _] Hfirst] [Hj Hmax].
  destruct (Nat.le_gt_cases m j) as [H|H]; [exact H|].
  specialize (Hfirst j H). rewrite (Hmax m Hm) in Hfirst. discriminate.
Qed.

(** C4.  When the class list is strictly ascending and the probability
    rows have one entry per class, none of them NaN, the labels are chosen
    without an exception and the label of a row is the one of the first
    index holding the row maximum: among the classes that attain the
    maximum it is the one of lowest index and of lowest value.  Both
    [predict] methods choose their labels with these statements. *)
Theorem ties_resolved_to_lowest_label (classes : list Z) (probabilities : matrix num) :
  StronglySorted Z.lt classes ->
  Forall (fun row => row <> [] /\ length row = length classes /\
                     Forall (fun p => isnan p = false) row) probabilities ->
  exists preds,
    classes_of_argmax classes probabilities = Ok preds /\
    Forall2 (fun row label =>
               exists m, argmax row = Ok m /\ maximal row m /\
                         nth_error classes m = Some label /\
                         forall j, maximal row j ->
                                   m <= j /\ (label <= nth j classes 0)%Z)
            probabilities preds.
Proof.
  intros Hsorted. unfold classes_of_argmax.
  induction 1 as [|row P (Hne & Hlen & Hnan) _ IH].
  - exists []. split; [reflexivity | constructor].
  - destruct IH as (preds & Hpreds & Hall).
    apply bind_ok in Hpreds as (ms & Hms & Htake).
    destruct (argmax_first_maximal Hne Hnan) as (m & Hm & Hfm).
    assert (Hmc : m < length classes) by (rewrite <- Hlen; apply Hfm).
    exists (nth m classes 0%Z :: preds). split.
    + cbn [mapM]. rewrite Hm, Hms. cbn [bind]. unfold take in *. cbn [mapM].
      unfold getitem at 1. rewrite (nth_error_nth' classes 0%Z Hmc).
      cbn [bind]. now rewrite Htake.
    + constructor; [|exact Hall].
      exists m. split; [exact Hm|]. split; [apply Hfm|].
      split; [now apply nth_error_nth'|].
      intros j Hj. pose proof (first_maximal_least Hfm Hj) as Hle.
      split; [exact Hle|].
      destruct (Nat.eq_dec m j) as [->|Hne']; [lia|].
      apply Z.lt_le_incl. apply sorted_nth; [exact Hsorted | lia |].
      rewrite <- Hlen. apply Hj.
Qed.

Lemma ties_resolved_to_lowest_label_witness :
  exists preds,
    classes_of_argmax [0%Z; 1%Z; 2%Z]
      [[Fin (frac 1 4); Fin (frac 3 8); Fin (frac 3 8)]] = Ok preds /\
    Forall2 (fun row label =>
               exists m, argmax row = Ok m /\ maximal row m /\
                         nth_error [0%Z; 1%Z; 2%Z] m = Some label /\
                         forall j, maximal row j ->
                                   m <= j /\ (label <= nth j [0%Z; 1%Z; 2%Z] 0)%Z)
            [[Fin (frac 1 4); Fin (frac 3 8); Fin (frac 3 8)]] preds.
Proof.
  apply ties_resolved_to_lowest_label.
  - repeat constructor.
  - repeat constructor. discriminate.
Defined.

(** * Radius queries: outliers *)

Module RadiusNeighborsFacts.
Import RadiusNeighborsClassifier.

Lemma check_neighbors_raises pl :
  In [] pl -> check_neighbors pl = Raise (ValueError no_neighbors_found).
Proof.
  induction pl as [|r pl IH]; intros H; [contradiction|].
  simpl. destruct r as [|a r]; [reflexivity|]. simpl.
  apply IH. destruct H as [H|H]; [discriminate | exact H].
Qed.

Lemma Qc_sum_zeros C : Qc_sum (repeat 0%Qc C) = 0%Qc.
Proof.
  induction C as [|C IH]; simpl; [reflexivity|].
  rewrite IH. apply Qcplus_0_l.
Qed.

Lemma adjusted_zeros C y prior : adjusted C y prior (repeat 0%Qc C) = repeat 0%Qc C.
Proof.
  unfold adjusted. rewrite (repeat_map_seq 0%Qc C).
  apply map_ext. intros c. rewrite <- repeat_map_seq, nth_repeat.
  unfold Qcdiv. now rewrite !Qcmult_0_l.
Qed.

(** The posterior of a row without votes: every entry is 0/0. *)
Lemma posterior_zero_row C y prior :
  (let adj := adjusted C y prior (repeat 0%Qc C) in
   map (fun a => div (Fin a) (Fin (Qc_sum adj))) adj) = repeat NaN C.
Proof.
  cbv zeta. rewrite adjusted_zeros, Qc_sum_zeros, map_repeat. reflexivity.
Qed.

Lemma argmax_scan_bound : forall ip i mp max_ind,
  max_ind < i -> argmax_scan ip i mp max_ind < i + length ip.
Proof.
  induction ip as [|x ip IH]; intros i mp max_ind H; simpl; [lia|].
  destruct (leb x mp).
  - specialize (IH (S i) mp max_ind). lia.
  - destruct (isnan x); [lia|]. specialize (IH (S i) x i). lia.
Qed.

Lemma argmax_bound row :
  row <> [] -> exists m, argmax row = Ok m /\ m < length row.
Proof.
  destruct row as [|x ip]; [congruence|]. intros _. simpl.
  destruct (isnan x).
  - exists 0. split; [reflexivity | lia].
  - eexists. split; [reflexivity|].
    pose proof (argmax_scan_bound ip x (max_ind:=0) (i:=1)). lia.
Qed.

Lemma classes_of_argmax_ok (classes : list Z) : forall P,
  0 < length classes -> rows_of_length (length classes) P ->
  exists preds, classes_of_argmax classes P = Ok preds /\ length preds = length P.
Proof.
  unfold classes_of_argmax.
  induction P as [|row P IH]; intros HC HP.
  - exists []. split; reflexivity.
  - inversion HP as [|? ? Hrow HP']; subst.
    destruct (IH HC HP') as (preds & Hpreds & Hlen).
    apply bind_ok in Hpreds as (ms & Hms & Htake).
    destruct (@argmax_bound row) as (m & Hm & Hlt).
    { intros ->. simpl in Hrow. lia. }
    exists (nth m classes 0%Z :: preds). split.
    + cbn [mapM]. rewrite Hm, Hms. cbn [bind]. unfold take in *. cbn [mapM].
      unfold getitem at 1.
      rewrite (nth_error_nth' classes 0%Z) by lia.
      cbn [bind]. now rewrite Htake.
    + simpl. now rewrite Hlen.
Qed.

Lemma update_nth_error {A} (f : A -> A) : forall a i j,
  nth_error (update a i f) j =
  if j =? i then option_map f (nth_error a j) else nth_error a j.
Proof.
  induction a as [|x a IH]; intros [|i] [|j]; simpl; try reflexivity.
  - now destruct (j =? i).
  - apply IH.
Qed.

Lemma impose_nth_error label : forall outliers preds i,
  nth_error (impose preds outliers label) i =
  if existsb (Nat.eqb i) outliers
  then option_map (fun _ => label) (nth_error preds i)
  else nth_error preds i.
Proof.
  unfold impose.
  induction outliers as [|o outliers IH]; intros preds i; simpl; [reflexivity|].
  rewrite IH, update_nth_error.
  destruct (i =? o); simpl.
  - destruct (nth_error preds i); simpl; now destruct (existsb _ _).
  - reflexivity.
Qed.

Lemma collect_outliers_ge : forall pl s i,
  In i (collect_outliers s pl) -> s <= i.
Proof.
  induction pl as [|r pl IH]; intros s i H; simpl in H; [contradiction|].
  destruct (length r <? 1); simpl in H.
  - destruct H as [->|H]; [lia|]. apply IH in H. lia.
  - apply IH in H. lia.
Qed.

Lemma collect_outliers_spec : forall pl s k,
  existsb (Nat.eqb (s + k)) (collect_outliers s pl) =
  match nth_error pl k with
  | Some [] => true
  | _ => false
  end.
Proof.
  induction pl as [|r pl IH]; intros s k.
  - now destruct k.
  - cbn [collect_outliers nth_error]. destruct k as [|k].
    + rewrite Nat.add_0_r.
      assert (Hrest : existsb (Nat.eqb s) (collect_outliers (S s) pl) = false).
      { destruct (existsb _ _) eqn:E; [|reflexivity].
        apply existsb_exists in E as (i & Hi & Heq).
        apply Nat.eqb_eq in Heq. subst. apply collect_outliers_ge in Hi. lia. }
      destruct r as [|a r]; simpl.
      * now rewrite Nat.eqb_refl.
      * exact Hrest.
    + replace (s + S k) with (S s + k) by lia.
      destruct (length r <? 1); cbn [existsb].
      * rewrite (proj2 (Nat.eqb_neq (S s + k) s)) by lia. apply IH.
      * apply IH.
Qed.

End RadiusNeighborsFacts.

Module RadiusNeighborsPredict.
Import RadiusNeighborsClassifier RadiusNeighborsFacts.

Lemma batch_votes_no_neighbors C : forall labels W i,
  same_shape labels W -> nth_error labels i = Some [] ->
  nth_error (batch_votes C labels W) i = Some (repeat 0%Qc C).
Proof.
  intros labels W i Hs. revert i.
  induction Hs as [|l w labels W _ _ IH]; intros [|i] Hi; simpl in *;
    try discriminate.
  - inversion Hi; subst. now rewrite RadiusNeighborsVotes.class_votes_empty.
  - now apply IH.
Qed.

Lemma same_shape_uniform (ind : matrix nat) (dist : matrix Qc) :
  same_shape ind dist ->
  same_shape ind (map (fun row => repeat 1%Qc (length row)) dist).
Proof.
  induction 1; simpl; constructor; auto. now rewrite repeat_length.
Qed.

Lemma posterior_rows_shape C y prior (V : matrix Qc) :
  rows_of_length C
    (map (fun votes =>
            let adj := adjusted C y prior votes in
            map (fun a => div (Fin a) (Fin (Qc_sum adj))) adj) V).
Proof.
  unfold rows_of_length. apply Forall_map, Forall_forall. intros votes _.
  cbv zeta. unfold adjusted. now rewrite !length_map, length_seq.
Qed.

(** A well-formed radius query with an outlier label that counts as
    given: the vote loop leaves the rows without neighbours at zero, the
    posterior is taken of every row, and the labels chosen for the rows
    without neighbours are replaced by the outlier label. *)
Lemma predict_with_outlier_label self dist ind prior label :
  let y := _y self in
  let C := length (_classes self) in
  let labels := map (map (fun i => nth i y 0)) ind in
  radius_query_ok self dist ind prior ->
  outlier_label self = Some label -> label <> 0%Z ->
  exists W V P preds0 preds,
    same_shape labels W /\
    vote_loop C W 0 labels = Ok V /\
    probabilities self dist labels = Ok P /\
    classes_of_argmax (_classes self) P = Ok preds0 /\
    predict self dist ind = Ok preds /\
    length preds = length ind /\
    forall i,
      (nth_error ind i = Some [] ->
       nth_error V i = Some (repeat 0%Qc C) /\
       nth_error P i = Some (repeat NaN C) /\
       nth_error preds i = Some label) /\
      (forall r, nth_error ind i = Some r -> r <> [] ->
       nth_error preds i = nth_error preds0 i).
Proof.
  intros y C labels (HC & He & Hind & (wopt & Hw & Hshape) & Hprior & Hlen)
         Hlabel Hnz.
  fold y in He, Hind, Hprior. fold C in HC, He, Hlen.
  set (W := match wopt with
            | None => map (fun row => repeat 1%Qc (length row)) dist
            | Some w => w
            end).
  assert (HsW : same_shape labels W).
  { unfold labels, W. apply same_shape_map. destruct wopt as [w|].
    - exact Hshape.
    - now apply same_shape_uniform. }
  pose proof (@pred_labels_below C y ind (proj1 He) Hind) as Hbelow.
  fold labels in Hbelow.
  pose proof (@RadiusNeighborsVotes.radius_vote_loop_votes C labels W [] HsW Hbelow) as HV.
  simpl in HV.
  set (V := batch_votes C labels W) in *.
  set (P := map (fun votes =>
                   let adj := adjusted C y prior votes in
                   map (fun a => div (Fin a) (Fin (Qc_sum adj))) adj) V).
  assert (HP : probabilities self dist labels = Ok P).
  { unfold probabilities, _get_weights. rewrite Hw. cbn [bind].
    fold W C. rewrite HV. cbn [bind]. fold y.
    apply posterior_rows; auto. apply batch_votes_shape. }
  destruct (@classes_of_argmax_ok (_classes self) P HC
              (posterior_rows_shape C y prior V)) as (preds0 & Hpreds0 & Hlen0).
  assert (Htruthy : truthy (outlier_label self) = true).
  { rewrite Hlabel. simpl. now destruct (Z.eqb_spec label 0). }
  assert (Hpredict : predict self dist ind =
                     Ok (impose preds0 (collect_outliers 0 labels) label)).
  { unfold predict, find_outliers. fold y.
    rewrite (@pred_labels_ok y ind Hind). cbn [bind]. fold labels.
    rewrite Htruthy. cbn [bind]. rewrite HP. cbn [bind].
    rewrite Hpreds0. cbn [bind]. now rewrite Hlabel. }
  assert (HlenV : length V = length ind).
  { unfold V, batch_votes. rewrite length_map, length_combine.
    apply Forall2_length in HsW. rewrite <- HsW, Nat.min_id.
    unfold labels. apply length_map. }
  assert (Hlen0' : length preds0 = length ind).
  { rewrite Hlen0. unfold P. now rewrite length_map. }
  exists W, V, P, preds0, (impose preds0 (collect_outliers 0 labels) label).
  repeat split; try assumption.
  - unfold impose.
    assert (Hfold : forall o p, length (fold_left
              (fun p i => update p i (fun _ : Z => label)) o p) = length p).
    { induction o as [|i o IH]; intros p; simpl; [reflexivity|].
      now rewrite IH, update_length. }
    now rewrite Hfold.
  - unfold V. apply batch_votes_no_neighbors; [exact HsW|].
    unfold labels. now rewrite nth_error_map, H.
  - unfold P. rewrite nth_error_map.
    unfold V. rewrite (@batch_votes_no_neighbors C labels W i HsW).
    + simpl. f_equal. apply posterior_zero_row.
    + unfold labels. now rewrite nth_error_map, H.
  - rewrite impose_nth_error.
    pose proof (collect_outliers_spec labels 0 i) as Hc.
    change (0 + i) with i in Hc. rewrite Hc. clear Hc.
    unfold labels. rewrite nth_error_map, H. simpl.
    destruct (nth_error preds0 i) eqn:E; [reflexivity|].
    apply nth_error_None in E.
    assert (i < length ind) by (apply nth_error_Some; congruence). lia.
  - intros r Hr Hne. rewrite impose_nth_error.
    pose proof (collect_outliers_spec labels 0 i) as Hc.
    change (0 + i) with i in Hc. rewrite Hc. clear Hc.
    unfold labels. rewrite nth_error_map, Hr. simpl.
    destruct r; [congruence | reflexivity].
Qed.

End RadiusNeighborsPredict.

(** C5.  Without an outlier label, a radius query with valid neighbour
    indices in which some sample has no neighbour makes [predict] raise
    the ValueError "no neighbors found": the outcome is that exception
    for every weight option and every prior option, also for one that
    would raise itself or return arrays of the wrong shape, since the
    check comes before the weights, the votes and the labels; no label
    sequence is returned. *)
Theorem no_neighbors_aborts_predict (self : RadiusNeighborsClassifier.t)
    (neigh_dist : matrix Qc) (neigh_ind : matrix nat) :
  RadiusNeighborsClassifier.outlier_label self = None ->
  Forall (Forall (fun i => i < length (RadiusNeighborsClassifier._y self)))
         neigh_ind ->
  In [] neigh_ind ->
  RadiusNeighborsClassifier.predict self neigh_dist neigh_ind =
  Raise (ValueError no_neighbors_found).
Proof.
  intros Hnone Hind Hempty.
  unfold RadiusNeighborsClassifier.predict, RadiusNeighborsClassifier.find_outliers.
  rewrite (@pred_labels_ok _ neigh_ind Hind). cbn [bind].
  rewrite Hnone. cbn [RadiusNeighborsClassifier.truthy].
  rewrite RadiusNeighborsFacts.check_neighbors_raises; [reflexivity|].
  apply in_map_iff. exists []. split; [reflexivity | exact Hempty].
Qed.

Lemma no_neighbors_aborts_predict_witness :
  RadiusNeighborsClassifier.predict
    (example_radius (fun _ => Raise CollaboratorError)
                    (fun _ => Raise CollaboratorError) None)
    [[frac 1 2; frac 1 2]; []] [[1; 2]; []] =
  Raise (ValueError no_neighbors_found).
Proof.
  apply no_neighbors_aborts_predict.
  - reflexivity.
  - cbn. repeat constructor.
  - right. left. reflexivity.
Defined.

(** C6.  The outlier label 0 is an integer label like any other, yet
    [if self.outlier_label:] takes it for no label: the query of the
    class docstring with a sample without neighbours raises the
    ValueError instead of answering 0 for that sample. *)
Theorem outlier_label_zero_raises :
  RadiusNeighborsClassifier.predict
    (example_radius uniform default_prior (Some 0%Z))
    [[frac 1 2; frac 1 2]; []] [[1; 2]; []] =
  Raise (ValueError no_neighbors_found).
Proof.
  reflexivity.
Qed.



Lemma example_radius_query_ok :
  radius_query_ok
    (example_radius uniform (explicit_prior [frac 1 5; frac 4 5]) (Some 7%Z))
    [[frac 1 2; frac 1 2]; []] [[1; 2]; []] [frac 1 5; frac 4 5].
Proof.
  unfold radius_query_ok. cbn.
  split; [lia|]. split.
  - split; [repeat constructor | intros [|[|c]] Hc; cbn; lia].
  - split; [repeat constructor|].
    split; [|split; reflexivity].
    exists None. split; [reflexivity | repeat constructor].
Defined.


(** C10.  In a well-formed radius query with a non-zero outlier label
    that is not one of the classes, [predict] answers that label, as it
    was given, for a sample without neighbours: the returned labels are
    not all members of the class list. *)
Theorem outlier_label_not_checked
    (self : RadiusNeighborsClassifier.t) (neigh_dist : matrix Qc)
    (neigh_ind : matrix nat) (prior : list Qc) (label : Z) (i : nat) :
  radius_query_ok self neigh_dist neigh_ind prior ->
  RadiusNeighborsClassifier.outlier_label self = Some label -> label <> 0%Z ->
  ~ In label (RadiusNeighborsClassifier._classes self) ->
  nth_error neigh_ind i = Some [] ->
  exists preds,
    RadiusNeighborsClassifier.predict self neigh_dist neigh_ind = Ok preds /\
    nth_error preds i = Some label /\
    exists v, In v preds /\ ~ In v (RadiusNeighborsClassifier._classes self).
Proof.
  intros Hok Hlabel Hnz Hnot Hi.
  destruct (@RadiusNeighborsPredict.predict_with_outlier_label
              self neigh_dist neigh_ind prior label Hok Hlabel Hnz)
    as (W & V & P & preds0 & preds & _ & _ & _ & _ & Hpred & _ & Hrows).
  destruct (Hrows i) as [Hout _]. destruct (Hout Hi) as (_ & _ & H3).
  exists preds. split; [exact Hpred|]. split; [exact H3|].
  exists label. split; [|exact Hnot].
  eapply nth_error_In; eassumption.
Qed.

Lemma outlier_label_not_checked_witness :
  exists preds,
    RadiusNeighborsClassifier.predict
      (example_radius uniform (explicit_prior [frac 1 5; frac 4 5]) (Some 7%Z))
      [[frac 1 2; frac 1 2]; []] [[1; 2]; []] = Ok preds /\
    nth_error preds 1 = Some 7%Z /\
    exists v, In v preds /\ ~ In v [0%Z; 1%Z].
Proof.
  apply (@outlier_label_not_checked
           (example_radius uniform (explicit_prior [frac 1 5; frac 4 5]) (Some 7%Z))
           [[frac 1 2; frac 1 2]; []] [[1; 2]; []] [frac 1 5; frac 4 5] 7%Z 1).
  - exact example_radius_query_ok.
  - reflexivity.
  - discriminate.
  - cbn. intros [H|[H|[]]]; discriminate.
  - reflexivity.
Defined.

(** * Further properties of the two classifiers *)

(** ** Shapes and membership *)

Lemma mapM_Forall2 {A B} (f : A -> result B) : forall l v,
  mapM f l = Ok v -> Forall2 (fun a b => f a = Ok b) l v.
Proof.
  induction l as [|a l IH]; simpl; intros v H.
  - inversion H. constructor.
  - apply bind_ok in H as (b & Hb & H). apply bind_ok in H as (bs & Hbs & H).
    inversion H; subst. constructor; auto.
Qed.

Lemma take_members {A} (a : list A) idx out :
  take a idx = Ok out -> Forall (fun x => In x a) out.
Proof.
  intros H. apply mapM_Forall2 in H.
  induction H as [|i x idx out Hi _ IH]; constructor; auto.
  unfold getitem in Hi. destruct (nth_error a i) eqn:E; [|discriminate].
  inversion Hi; subst. eapply nth_error_In; eassumption.
Qed.

Lemma broadcast_length op c M v c' M' :
  broadcast op c M v = Ok (c', M') -> length M' = length M.
Proof.
  unfold broadcast. intros H. apply bind_ok in H as (c0 & _ & H).
  inversion H. apply length_map.
Qed.

Lemma posterior_length C P y cp out :
  posterior C P y cp = Ok out -> length out = length P.
Proof.
  unfold posterior. intros H.
  apply bind_ok in H as (prior & _ & H).
  apply bind_ok in H as ([c1 M1] & H1 & H).
  apply bind_ok in H as ([c2 M2] & H2 & H).
  inversion H. unfold divide_rows_by_sum. rewrite length_map.
  apply broadcast_length in H1, H2. simpl in *.
  rewrite H2, H1. now rewrite length_map.
Qed.

Module KNeighborsLength.
Import KNeighborsClassifier.

Lemma iadd_at_length : forall P idx w P',
  iadd_at P idx w = Ok P' -> length P' = length P.
Proof.
  induction P as [|row P IH]; intros [|c idx] [|x w] P' H;
    simpl in H; try discriminate.
  - now inversion H.
  - destruct (c <? length row); [|discriminate].
    apply bind_ok in H as (P1 & HP1 & H). inversion H; subst.
    simpl. f_equal. eapply IH; eassumption.
Qed.

Lemma vote_loop_length labels W : forall cols P P',
  vote_loop cols labels W P = Ok P' -> length P' = length P.
Proof.
  induction cols as [|i cols IH]; intros P P' H; simpl in H.
  - now inversion H.
  - apply bind_ok in H as (idx & _ & H). apply bind_ok in H as (w & _ & H).
    apply bind_ok in H as (P1 & HP1 & H).
    rewrite (IH _ _ H). eapply iadd_at_length; eassumption.
Qed.

Lemma votes_length self dist ind V :
  votes self dist ind = Ok V -> length V = length ind.
Proof.
  unfold votes. intros H.
  apply bind_ok in H as (labels & _ & H). apply bind_ok in H as (w & _ & H).
  apply vote_loop_length in H. rewrite H. unfold zeros. apply repeat_length.
Qed.

Lemma predict_proba_length self dist ind out :
  predict_proba self dist ind = Ok out -> length out = length ind.
Proof.
  unfold predict_proba. intros H. apply bind_ok in H as (V & HV & H).
  apply posterior_length in H. rewrite H. eapply votes_length; eassumption.
Qed.

End KNeighborsLength.

(** X1.  Whenever the fixed-k [predict] returns, it returns one label per
    sample and every label is a member of [_classes]. *)
Theorem knn_predict_labels_are_classes (self : KNeighborsClassifier.t)
    (neigh_dist : matrix Qc) (neigh_ind : matrix nat) (preds : list Z) :
  KNeighborsClassifier.predict self neigh_dist neigh_ind = Ok preds ->
  length preds = length neigh_ind /\
  Forall (fun label => In label (KNeighborsClassifier._classes self)) preds.
Proof.
  unfold KNeighborsClassifier.predict, classes_of_argmax. intros H.
  apply bind_ok in H as (P & HP & H). apply bind_ok in H as (best & Hbest & H).
  split.
  - unfold take in H. apply mapM_length in H, Hbest.
    rewrite H, Hbest. eapply KNeighborsLength.predict_proba_length; eassumption.
  - eapply take_members; eassumption.
Qed.

Lemma knn_predict_labels_are_classes_witness :
  KNeighborsClassifier.predict
    (example_knn (explicit_prior [frac 3 4; frac 1 4]))
    [[frac 0 1; frac 1 1; frac 1 1]; [frac 0 1; frac 1 1; frac 1 1]]
    [[2; 1; 3]; [3; 3; 3]] = Ok [0%Z; 1%Z] /\
  length [0%Z; 1%Z] = 2 /\
  Forall (fun label => In label [0%Z; 1%Z]) [0%Z; 1%Z].
Proof.
  split; [vm_compute; reflexivity|].
  apply (@knn_predict_labels_are_classes
           (example_knn (explicit_prior [frac 3 4; frac 1 4]))
           [[frac 0 1; frac 1 1; frac 1 1]; [frac 0 1; frac 1 1; frac 1 1]]
           [[2; 1; 3]; [3; 3; 3]] [0%Z; 1%Z]).
  vm_compute. reflexivity.
Defined.

(** X2.  With encoded training labels and a prior of one entry per class,
    whenever [predict_proba] returns, the matrix has one row per sample
    and one column per class. *)
Theorem predict_proba_shape (self : KNeighborsClassifier.t)
    (neigh_dist : matrix Qc) (neigh_ind : matrix nat)
    (prior : list Qc) (out : matrix num) :
  let y := KNeighborsClassifier._y self in
  let C := length (KNeighborsClassifier._classes self) in
  encoded_labels C y ->
  KNeighborsClassifier.class_prior self y = Ok prior -> length prior = C ->
  KNeighborsClassifier.predict_proba self neigh_dist neigh_ind = Ok out ->
  length out = length neigh_ind /\ rows_of_length C out.
Proof.
  intros y C He Hprior Hlen Hout.
  split; [eapply KNeighborsLength.predict_proba_length; eassumption|].
  unfold KNeighborsClassifier.predict_proba in Hout.
  apply bind_ok in Hout as (V & HV & Hout).
  apply KNeighborsShape.votes_shape in HV. fold C in HV. fold y C in Hout.
  rewrite (@posterior_rows C V y _ prior He HV Hprior Hlen) in Hout.
  inversion Hout. apply RadiusNeighborsPredict.posterior_rows_shape.
Qed.

Lemma predict_proba_shape_witness :
  exists out,
    KNeighborsClassifier.predict_proba
      (example_knn (explicit_prior [frac 3 4; frac 1 4]))
      [[frac 0 1; frac 1 1; frac 1 1]] [[2; 1; 3]] = Ok out /\
    length out = 1 /\ rows_of_length 2 out.
Proof.
  eexists. split; [reflexivity|].
  apply (@predict_proba_shape
           (example_knn (explicit_prior [frac 3 4; frac 1 4]))
           [[frac 0 1; frac 1 1; frac 1 1]] [[2; 1; 3]] [frac 3 4; frac 1 4]).
  - split; [cbn; repeat constructor | intros [|[|c]] Hc; cbn in *; lia].
  - reflexivity.
  - reflexivity.
  - reflexivity.
Defined.

(** ** Neighbour indices out of range *)

Lemma take_raises {A} (a : list A) : forall idx,
  Exists (fun i => length a <= i) idx -> take a idx = Raise IndexError.
Proof.
  unfold take. induction idx as [|i idx IH]; intros H; [inversion H|].
  simpl. unfold getitem at 1. destruct (nth_error a i) eqn:E.
  - cbn [bind]. rewrite IH; [reflexivity|].
    inversion H as [? ? Hi|]; subst; [|assumption].
    apply nth_error_None in Hi. congruence.
  - reflexivity.
Qed.

Lemma take_ok_or_index_error {A} (a : list A) : forall idx,
  (exists out, take a idx = Ok out) \/ take a idx = Raise IndexError.
Proof.
  unfold take. induction idx as [|i idx IH]; cbn [mapM].
  - left. eexists. reflexivity.
  - unfold getitem at 1 3. destruct (nth_error a i); [|right; reflexivity].
    cbn [bind]. destruct IH as [[out ->]| ->]; [left|right]; cbn [bind]; eauto.
Qed.

Lemma pred_labels_raise (y : list nat) : forall ind,
  Exists (Exists (fun i => length y <= i)) ind ->
  mapM (take y) ind = Raise IndexError.
Proof.
  induction ind as [|row ind IH]; intros H; [inversion H|].
  simpl. inversion H as [? ? Hrow|? ? Hrest]; subst.
  - now rewrite (@take_raises nat y row Hrow).
  - destruct (take_ok_or_index_error y row) as [[out ->]| ->]; [|reflexivity].
    cbn [bind]. now rewrite (IH Hrest).
Qed.

(** X3.  A neighbour index that does not point into the training labels
    makes both classifiers raise IndexError, whatever the weights, the
    prior and the outlier label, and whether or not some sample has no
    neighbour: [self._y[...]] is the first thing evaluated. *)
Theorem index_out_of_range_raises (y : list nat) (classes : list Z)
    (w : weights_option) (cp : class_prior_option) (label : option Z)
    (neigh_dist : matrix Qc) (neigh_ind : matrix nat) :
  Exists (Exists (fun i => length y <= i)) neigh_ind ->
  KNeighborsClassifier.predict_proba
    {| KNeighborsClassifier._y := y; KNeighborsClassifier._classes := classes;
       KNeighborsClassifier.weights := w; KNeighborsClassifier.class_prior := cp |}
    neigh_dist neigh_ind = Raise IndexError /\
  KNeighborsClassifier.predict
    {| KNeighborsClassifier._y := y; KNeighborsClassifier._classes := classes;
       KNeighborsClassifier.weights := w; KNeighborsClassifier.class_prior := cp |}
    neigh_dist neigh_ind = Raise IndexError /\
  RadiusNeighborsClassifier.predict
    {| RadiusNeighborsClassifier._y := y;
       RadiusNeighborsClassifier._classes := classes;
       RadiusNeighborsClassifier.weights := w;
       RadiusNeighborsClassifier.class_prior := cp;
       RadiusNeighborsClassifier.outlier_label := label |}
    neigh_dist neigh_ind = Raise IndexError.
Proof.
  intros H. pose proof (@pred_labels_raise y neigh_ind H) as Hraise.
  unfold KNeighborsClassifier.predict, KNeighborsClassifier.predict_proba,
    KNeighborsClassifier.votes, RadiusNeighborsClassifier.predict.
  cbn [KNeighborsClassifier._y RadiusNeighborsClassifier._y].
  rewrite Hraise. repeat split; reflexivity.
Qed.

Lemma index_out_of_range_raises_witness :
  RadiusNeighborsClassifier.predict
    (example_radius uniform default_prior None)
    [[frac 1 2]; []] [[4]; []] = Raise IndexError.
Proof.
  apply (@index_out_of_range_raises [0; 0; 1; 1] [0%Z; 1%Z] uniform
           default_prior None [[frac 1 2]; []] [[4]; []]).
  left. left. cbn. lia.
Defined.

(** ** Radius queries in which every sample has a neighbour *)

Module RadiusNeighborsNoOutlier.
Import RadiusNeighborsClassifier.

Lemma pred_labels_nonempty (y : list nat) ind pl :
  mapM (take y) ind = Ok pl ->
  Forall (fun r => r <> []) ind -> Forall (fun r => r <> []) pl.
Proof.
  intros H. apply mapM_Forall2 in H.
  induction H as [|r l ind pl Hr _ IH]; intros Hne; constructor;
    inversion Hne; subst; auto.
  apply mapM_length in Hr. intros ->. destruct r; [congruence | discriminate].
Qed.

Lemma collect_outliers_none : forall pl s,
  Forall (fun r => r <> []) pl -> collect_outliers s pl = [].
Proof.
  induction pl as [|r pl IH]; intros s H; [reflexivity|].
  inversion H; subst. simpl. destruct r; [congruence|]. simpl. now apply IH.
Qed.

Lemma check_neighbors_ok : forall pl,
  Forall (fun r => r <> []) pl -> check_neighbors pl = Ok tt.
Proof.
  induction pl as [|r pl IH]; intros H; [reflexivity|].
  inversion H; subst. simpl. destruct r; [congruence|]. simpl. now apply IH.
Qed.

Lemma find_outliers_none self pl :
  Forall (fun r => r <> []) pl -> find_outliers self pl = Ok [].
Proof.
  intros H. unfold find_outliers. destruct (truthy (outlier_label self)).
  - now rewrite collect_outliers_none.
  - now rewrite check_neighbors_ok.
Qed.

(** Without a sample without neighbours, [predict] is the choice of the
    labels from the posterior of all the rows. *)
Lemma predict_without_outliers self dist ind :
  Forall (fun r => r <> []) ind ->
  predict self dist ind =
  (pred_labels <- mapM (take (_y self)) ind ;;
   probabilities <- probabilities self dist pred_labels ;;
   classes_of_argmax (_classes self) probabilities).
Proof.
  intros Hne. unfold predict.
  destruct (mapM (take (_y self)) ind) as [pl|e] eqn:E; [|reflexivity].
  cbn [bind].
  rewrite (@find_outliers_none self pl (@pred_labels_nonempty _ ind pl E Hne)).
  cbn [bind]. destruct (probabilities self dist pl) as [P|e]; [|reflexivity].
  cbn [bind]. destruct (classes_of_argmax (_classes self) P) as [preds|e];
    [|reflexivity].
  cbn [bind]. destruct (outlier_label self) as [label|]; [|reflexivity].
  now destruct (truthy (Some label)).
Qed.

End RadiusNeighborsNoOutlier.

(** X4.  When every sample of a radius query has at least one neighbour,
    the outcome of [predict], labels or exception, does not depend on the
    outlier label the estimator was constructed with, among the labels
    that fit in a C long (and no label). *)
Theorem outlier_label_unused_without_outliers
    (self : RadiusNeighborsClassifier.t) (label1 label2 : option Z)
    (neigh_dist : matrix Qc) (neigh_ind : matrix nat) :
  label_fits label1 -> label_fits label2 ->
  Forall (fun r => r <> []) neigh_ind ->
  RadiusNeighborsClassifier.predict (with_outlier_label self label1)
    neigh_dist neigh_ind =
  RadiusNeighborsClassifier.predict (with_outlier_label self label2)
    neigh_dist neigh_ind.
Proof.
  intros _ _ Hne.
  now rewrite !RadiusNeighborsNoOutlier.predict_without_outliers.
Qed.

Lemma outlier_label_unused_without_outliers_witness :
  RadiusNeighborsClassifier.predict
    (with_outlier_label (example_radius uniform default_prior None) (Some 7%Z))
    [[frac 1 2; frac 1 2]; [frac 1 3]] [[1; 2]; [3]] =
  RadiusNeighborsClassifier.predict
    (with_outlier_label (example_radius uniform default_prior None) None)
    [[frac 1 2; frac 1 2]; [frac 1 3]] [[1; 2]; [3]].
Proof.
  apply outlier_label_unused_without_outliers.
  - unfold label_fits, fits_c_long. lia.
  - exact I.
  - repeat constructor; discriminate.
Defined.

Lemma Forall2_nth_error {A B} (R : A -> B -> Prop) : forall l l',
  length l' = length l ->
  (forall i a b, nth_error l i = Some a -> nth_error l' i = Some b -> R a b) ->
  Forall2 R l l'.
Proof.
  induction l as [|a l IH]; intros [|b l'] Hlen H; simpl in Hlen;
    try discriminate; constructor.
  - apply (H 0); reflexivity.
  - apply IH; [lia|]. intros i x y Hx Hy. apply (H (S i)); assumption.
Qed.

(** X5.  A well-formed radius query on an estimator with a non-zero
    outlier label that fits in a C long raises nothing: [predict] returns
    one label per sample, in the order of the samples, the outlier label
    for each sample without neighbours and a member of the class list for
    each of the others. *)
Theorem radius_predict_with_outlier_label
    (self : RadiusNeighborsClassifier.t) (neigh_dist : matrix Qc)
    (neigh_ind : matrix nat) (prior : list Qc) (label : Z) :
  radius_query_ok self neigh_dist neigh_ind prior ->
  RadiusNeighborsClassifier.outlier_label self = Some label -> label <> 0%Z ->
  fits_c_long label ->
  exists preds,
    RadiusNeighborsClassifier.predict self neigh_dist neigh_ind = Ok preds /\
    Forall2 (fun r p =>
               (r = [] -> p = label) /\
               (r <> [] -> In p (RadiusNeighborsClassifier._classes self)))
            neigh_ind preds.
Proof.
  intros Hok Hlabel Hnz _.
  destruct (@RadiusNeighborsPredict.predict_with_outlier_label
              self neigh_dist neigh_ind prior label Hok Hlabel Hnz)
    as (W & V & P & preds0 & preds & _ & _ & _ & Hpreds0 & Hpred & Hlen & Hrows).
  exists preds. split; [exact Hpred|].
  apply Forall2_nth_error; [exact Hlen|].
  intros i r p Hr Hp. destruct (Hrows i) as [Hout Hin]. split.
  - intros ->. destruct (Hout Hr) as (_ & _ & H). congruence.
  - intros Hne. rewrite (Hin r Hr Hne) in Hp.
    unfold classes_of_argmax in Hpreds0.
    apply bind_ok in Hpreds0 as (best & _ & Htake).
    apply take_members in Htake. rewrite Forall_forall in Htake.
    apply Htake. eapply nth_error_In; eassumption.
Qed.

Lemma radius_predict_with_outlier_label_witness :
  exists preds,
    RadiusNeighborsClassifier.predict
      (example_radius uniform (explicit_prior [frac 1 5; frac 4 5]) (Some 7%Z))
      [[frac 1 2; frac 1 2]; []] [[1; 2]; []] = Ok preds /\
    Forall2 (fun r p => (r = [] -> p = 7%Z) /\ (r <> [] -> In p [0%Z; 1%Z]))
            [[1; 2]; []] preds.
Proof.
  apply (@radius_predict_with_outlier_label
           (example_radius uniform (explicit_prior [frac 1 5; frac 4 5]) (Some 7%Z))
           [[frac 1 2; frac 1 2]; []] [[1; 2]; []] [frac 1 5; frac 4 5] 7%Z).
  - exact example_radius_query_ok.
  - reflexivity.
  - discriminate.
  - unfold fits_c_long. lia.
Defined.

(** ** The two classifiers on the same neighbours *)

Lemma uniform_weights_agree (labels : matrix nat) (dist : matrix Qc) :
  same_shape labels dist ->
  map (fun row => repeat 1%Qc (length row)) dist =
  KNeighborsClassifier.ones_like labels.
Proof.
  induction 1 as [|l d labels dist Hld _ IH]; simpl; [reflexivity|].
  rewrite IH. f_equal. rewrite <- Hld. clear.
  induction l; simpl; congruence.
Qed.

(** X6.  On a rectangular query (the same number [k >= 1] of neighbours
    for every sample) with valid neighbour indices, training labels below
    the number of classes and weights of the shape of the neighbour
    array, the radius classifier and the fixed-k classifier with the same
    training labels, classes, weights and prior have the same outcome of
    [predict], whatever the outlier label among those that fit in a C
    long (and no label). *)
Theorem radius_agrees_with_fixed_k (y : list nat) (classes : list Z)
    (w : weights_option) (cp : class_prior_option) (label : option Z)
    (neigh_dist : matrix Qc) (neigh_ind : matrix nat) (k : nat) :
  Forall (fun l => l < length classes) y ->
  Forall (Forall (fun i => i < length y)) neigh_ind ->
  rows_of_length k neigh_ind -> 0 < k ->
  (forall wopt, w neigh_dist = Ok wopt ->
     same_shape neigh_ind (match wopt with
                           | None => neigh_dist
                           | Some w' => w'
                           end)) ->
  label_fits label ->
  RadiusNeighborsClassifier.predict
    {| RadiusNeighborsClassifier._y := y;
       RadiusNeighborsClassifier._classes := classes;
       RadiusNeighborsClassifier.weights := w;
       RadiusNeighborsClassifier.class_prior := cp;
       RadiusNeighborsClassifier.outlier_label := label |}
    neigh_dist neigh_ind =
  KNeighborsClassifier.predict
    {| KNeighborsClassifier._y := y; KNeighborsClassifier._classes := classes;
       KNeighborsClassifier.weights := w; KNeighborsClassifier.class_prior := cp |}
    neigh_dist neigh_ind.
Proof.
  intros Hy Hind Hk Hpos Hshape _.
  assert (Hne : Forall (fun r : list nat => r <> []) neigh_ind).
  { unfold rows_of_length in Hk. eapply Forall_impl; [|exact Hk].
    intros r Hr ->. simpl in Hr. lia. }
  rewrite (RadiusNeighborsNoOutlier.predict_without_outliers _ neigh_dist Hne).
  unfold KNeighborsClassifier.predict, KNeighborsClassifier.predict_proba,
    KNeighborsClassifier.votes, RadiusNeighborsClassifier.probabilities,
    _get_weights.
  cbn [KNeighborsClassifier._y KNeighborsClassifier._classes
       KNeighborsClassifier.weights KNeighborsClassifier.class_prior
       RadiusNeighborsClassifier._y RadiusNeighborsClassifier._classes
       RadiusNeighborsClassifier.weights RadiusNeighborsClassifier.class_prior].
  rewrite (@pred_labels_ok y neigh_ind Hind). cbn [bind].
  destruct (w neigh_dist) as [wopt|e] eqn:Hw; [|reflexivity].
  cbn [bind]. specialize (Hshape wopt eq_refl).
  set (labels := map (map (fun i => nth i y 0)) neigh_ind).
  assert (Hbelow : Forall (Forall (fun c => c < length classes)) labels)
    by now apply pred_labels_below.
  assert (HW : match wopt with
               | Some w0 => w0
               | None => map (fun row => repeat 1%Qc (length row)) neigh_dist
               end =
               match wopt with
               | Some w0 => w0
               | None => KNeighborsClassifier.ones_like labels
               end).
  { destruct wopt as [w0|]; [reflexivity|].
    apply uniform_weights_agree. now apply same_shape_map. }
  rewrite HW.
  set (W := match wopt with
            | Some w0 => w0
            | None => KNeighborsClassifier.ones_like labels
            end).
  assert (HsW : same_shape labels W).
  { unfold W, labels. destruct wopt as [w0|].
    - now apply same_shape_map.
    - apply same_shape_ones. }
  pose proof (@RadiusNeighborsVotes.radius_vote_loop_votes
                (length classes) labels W [] HsW Hbelow) as Hr.
  cbn [app length] in Hr. rewrite Hr.
  replace (length neigh_ind) with (length labels)
    by (unfold labels; apply length_map).
  rewrite (@KNeighborsVotes.vote_loop_votes (length classes)
             (n_columns labels) labels W HsW); [reflexivity| |exact Hbelow].
  apply (@rows_of_length_columns _ k). now apply rows_of_length_map.
Qed.

Lemma radius_agrees_with_fixed_k_witness :
  RadiusNeighborsClassifier.predict
    (example_radius uniform default_prior (Some 7%Z))
    [[frac 1 10; frac 9 10; frac 11 10]] [[1; 0; 2]] =
  KNeighborsClassifier.predict (example_knn default_prior)
    [[frac 1 10; frac 9 10; frac 11 10]] [[1; 0; 2]].
Proof.
  apply (@radius_agrees_with_fixed_k [0; 0; 1; 1] [0%Z; 1%Z] uniform
           default_prior (Some 7%Z)
           [[frac 1 10; frac 9 10; frac 11 10]] [[1; 0; 2]] 3).
  - cbn. repeat constructor.
  - cbn. repeat constructor.
  - repeat constructor.
  - lia.
  - intros wopt H. inversion H. repeat constructor.
  - unfold label_fits, fits_c_long. lia.
Defined.

(** ** The votes, neighbour by neighbour *)

Lemma class_weight_cons c a l b x :
  class_weight c (a :: l) (b :: x) =
  ((if a =? c then b else 0) + class_weight c l x)%Qc.
Proof.
  unfold class_weight. simpl. destruct (a =? c); simpl.
  - reflexivity.
  - now rewrite Qcplus_0_l.
Qed.

(** ** Uniform weights *)

Lemma of_nat_succ n : of_nat (S n) = (1 + of_nat n)%Qc.
Proof.
  apply Qc_is_canon. unfold of_nat, Qcplus, Q2Qc, this.
  rewrite !Qred_correct. rewrite Nat2Z.inj_succ, <- Z.add_1_l.
  now rewrite inject_Z_plus.
Qed.

Lemma class_weight_ones c : forall l,
  class_weight c l (map (fun _ => 1%Qc) l) = of_nat (count_occ Nat.eq_dec l c).
Proof.
  induction l as [|a l IH]; [reflexivity|].
  cbn [map]. rewrite class_weight_cons, IH.
  destruct (Nat.eqb_spec a c) as [->|Hne].
  - rewrite count_occ_cons_eq by reflexivity. now rewrite of_nat_succ.
  - rewrite count_occ_cons_neq by assumption. apply Qcplus_0_l.
Qed.

Lemma batch_votes_ones C : forall labels,
  batch_votes C labels (KNeighborsClassifier.ones_like labels) =
  map (fun l => map (fun c => of_nat (count_occ Nat.eq_dec l c)) (seq 0 C)) labels.
Proof.
  unfold batch_votes, class_votes.
  induction labels as [|l labels IH]; simpl; [reflexivity|].
  rewrite IH. f_equal. apply map_ext. intros c. apply class_weight_ones.
Qed.

(** X8.  With uniform weights, valid neighbour indices, training labels
    below the number of classes and the same number of neighbours for
    every sample, the vote of a sample for a class is the number of its
    neighbours whose training label is that class. *)
Theorem uniform_votes_count_neighbours (y : list nat) (classes : list Z)
    (cp : class_prior_option) (neigh_dist : matrix Qc) (neigh_ind : matrix nat)
    (k : nat) :
  Forall (fun l => l < length classes) y ->
  Forall (Forall (fun i => i < length y)) neigh_ind ->
  rows_of_length k neigh_ind ->
  KNeighborsClassifier.votes
    {| KNeighborsClassifier._y := y; KNeighborsClassifier._classes := classes;
       KNeighborsClassifier.weights := uniform;
       KNeighborsClassifier.class_prior := cp |}
    neigh_dist neigh_ind =
  Ok (map (fun row =>
             map (fun c => of_nat (count_occ Nat.eq_dec
                                     (map (fun i => nth i y 0) row) c))
                 (seq 0 (length classes)))
          neigh_ind).
Proof.
  intros Hy Hind Hk.
  rewrite (@knn_votes
             {| KNeighborsClassifier._y := y;
                KNeighborsClassifier._classes := classes;
                KNeighborsClassifier.weights := uniform;
                KNeighborsClassifier.class_prior := cp |}
             neigh_dist neigh_ind None k Hy Hind Hk eq_refl)
    by discriminate.
  cbn [KNeighborsClassifier._y KNeighborsClassifier._classes].
  now rewrite batch_votes_ones, map_map.
Qed.

Lemma uniform_votes_count_neighbours_witness :
  KNeighborsClassifier.votes (example_knn default_prior)
    [[frac 1 10; frac 9 10; frac 11 10]] [[1; 0; 2]] =
  Ok [[of_nat 2; of_nat 1]].
Proof.
  apply (@uniform_votes_count_neighbours [0; 0; 1; 1] [0%Z; 1%Z] default_prior
           [[frac 1 10; frac 9 10; frac 11 10]] [[1; 0; 2]] 3).
  - cbn. repeat constructor.
  - cbn. repeat constructor.
  - repeat constructor.
Defined.

(** ** The fixed-k pipeline on a well-formed query *)

Lemma Forall2_map_left {A B C} (R : B -> C -> Prop) (f : A -> B) : forall l l',
  Forall2 R (map f l) l' -> Forall2 (fun a c => R (f a) c) l l'.
Proof.
  induction l as [|a l IH]; intros l' H; inversion H; subst; constructor; auto.
Qed.

Lemma classes_of_argmax_rows (classes : list Z) : forall P preds,
  classes_of_argmax classes P = Ok preds ->
  Forall2 (fun row label =>
             exists m, argmax row = Ok m /\ nth_error classes m = Some label)
          P preds.
Proof.
  unfold classes_of_argmax, take.
  induction P as [|row P IH]; intros preds H.
  - simpl in H. inversion H. constructor.
  - cbn [mapM] in H.
    apply bind_ok in H as (best & Hbest & H).
    apply bind_ok in Hbest as (m & Hm & Hbest).
    apply bind_ok in Hbest as (ms & Hms & Hbest).
    inversion Hbest; subst. cbn [mapM] in H.
    apply bind_ok in H as (label & Hlabel & H).
    apply bind_ok in H as (labels & Hlabels & H).
    inversion H; subst. constructor.
    + exists m. split; [exact Hm|].
      unfold getitem in Hlabel.
      destruct (nth_error classes m); [congruence | discriminate].
    + apply IH. now rewrite Hms.
Qed.

Lemma ones_are_ones_like (labels : matrix nat) : forall W,
  same_shape labels W -> Forall (Forall (fun x => x = 1%Qc)) W ->
  W = KNeighborsClassifier.ones_like labels.
Proof.
  induction 1 as [|l w labels W Hlw _ IH]; intros Hones; [reflexivity|].
  inversion Hones as [|? ? Hw HW]; subst. simpl. f_equal; [|now apply IH].
  clear - Hlw Hw. revert w Hlw Hw.
  induction l as [|a l IHl]; intros [|x w] Hlen Hw; simpl in *;
    try discriminate; [reflexivity|].
  inversion Hw; subst. f_equal. apply IHl; [lia | assumption].
Qed.

(** On a well-formed query the three methods return: the votes are the
    per-class weight sums, the probabilities their posterior rows, and
    each label the class at the argmax of its row. *)
Lemma knn_pipeline self dist ind W prior k :
  let y := KNeighborsClassifier._y self in
  let C := length (KNeighborsClassifier._classes self) in
  let V := batch_votes C (map (map (fun i => nth i y 0)) ind) W in
  knn_query_ok self dist ind W prior k ->
  KNeighborsClassifier.votes self dist ind = Ok V /\
  KNeighborsClassifier.predict_proba self dist ind =
    Ok (map (posterior_row C y prior) V) /\
  exists preds,
    KNeighborsClassifier.predict self dist ind = Ok preds /\
    Forall2 (fun votes label =>
               exists m, argmax (posterior_row C y prior votes) = Ok m /\
                         nth_error (KNeighborsClassifier._classes self) m =
                         Some label)
            V preds.
Proof.
  intros y C V (HC & He & Hind & Hk & HsW & Hw & Hprior & Hlen).
  fold y in He, Hind, Hprior. fold C in HC, He, Hlen.
  assert (HV : KNeighborsClassifier.votes self dist ind = Ok V).
  { destruct Hw as [Hw|[Hw Hones]].
    - apply (@knn_votes self dist ind (Some W) k (proj1 He) Hind Hk Hw).
      intros w Heq. inversion Heq. now subst.
    - rewrite (@knn_votes self dist ind None k (proj1 He) Hind Hk Hw)
        by discriminate.
      unfold V. fold y C. f_equal. f_equal. symmetry.
      apply ones_are_ones_like; [|exact Hones]. now apply same_shape_map. }
  assert (HP : KNeighborsClassifier.predict_proba self dist ind =
               Ok (map (posterior_row C y prior) V)).
  { unfold KNeighborsClassifier.predict_proba. rewrite HV. cbn [bind].
    fold y C. apply posterior_rows; auto. apply batch_votes_shape. }
  split; [exact HV|]. split; [exact HP|].
  destruct (@RadiusNeighborsFacts.classes_of_argmax_ok
              (KNeighborsClassifier._classes self)
              (map (posterior_row C y prior) V) HC
              (RadiusNeighborsPredict.posterior_rows_shape C y prior V))
    as (preds & Hpreds & _).
  exists preds. split.
  - unfold KNeighborsClassifier.predict. rewrite HP. cbn [bind]. exact Hpreds.
  - apply (@Forall2_map_left _ _ _
             (fun row label =>
                exists m, argmax row = Ok m /\
                          nth_error (KNeighborsClassifier._classes self) m =
                          Some label)
             (posterior_row C y prior)).
    now apply classes_of_argmax_rows.
Qed.


(** ** Samples without votes *)

Lemma Forall2_impl_in {A B} (R R' : A -> B -> Prop) : forall l l',
  Forall2 R l l' ->
  (forall a b, In a l -> R a b -> R' a b) ->
  Forall2 R' l l'.
Proof.
  induction 1 as [|a b l l' Hab _ IH]; intros H; constructor.
  - apply H; [now left | exact Hab].
  - apply IH. intros x y' Hx. apply H. now right.
Qed.

Lemma all_zero_is_repeat (votes : list Qc) :
  Forall (fun v => v = 0%Qc) votes -> votes = repeat 0%Qc (length votes).
Proof.
  induction 1 as [|v votes Hv _ IH]; simpl; [reflexivity|]. congruence.
Qed.

Lemma argmax_all_nan C : 0 < C -> argmax (repeat NaN C) = Ok 0.
Proof.
  destruct C; [lia | reflexivity].
Qed.

(** X11.  On a well-formed fixed-k query, a sample whose votes are all
    zero (every neighbour weight zero) raises nothing: its row of
    [predict_proba] is NaN in every entry, the outcome of 0/0, and
    [predict] answers the first class for it. *)
Theorem knn_zero_votes_give_nan (self : KNeighborsClassifier.t)
    (neigh_dist : matrix Qc) (neigh_ind : matrix nat) (W : matrix Qc)
    (prior : list Qc) (k : nat) :
  let C := length (KNeighborsClassifier._classes self) in
  knn_query_ok self neigh_dist neigh_ind W prior k ->
  exists V out preds,
    KNeighborsClassifier.votes self neigh_dist neigh_ind = Ok V /\
    KNeighborsClassifier.predict_proba self neigh_dist neigh_ind = Ok out /\
    KNeighborsClassifier.predict self neigh_dist neigh_ind = Ok preds /\
    Forall2 (fun votes row =>
               Forall (fun v => v = 0%Qc) votes -> row = repeat NaN C) V out /\
    Forall2 (fun votes label =>
               Forall (fun v => v = 0%Qc) votes ->
               nth_error (KNeighborsClassifier._classes self) 0 = Some label)
            V preds.
Proof.
  intros C Hok.
  destruct (@knn_pipeline self neigh_dist neigh_ind W prior k Hok)
    as (HV & HP & preds & Hpred & Hrows).
  destruct Hok as (HC & _).
  set (y := KNeighborsClassifier._y self) in *. fold C in HV, HP, Hrows, HC.
  set (V := batch_votes C (map (map (fun i => nth i y 0)) neigh_ind) W) in *.
  assert (Hzero : forall votes, In votes V -> Forall (fun v => v = 0%Qc) votes ->
                    posterior_row C y prior votes = repeat NaN C).
  { intros votes Hin Hz.
    pose proof (batch_votes_shape C (map (map (fun i => nth i y 0)) neigh_ind) W)
      as Hshape.
    unfold rows_of_length in Hshape. rewrite Forall_forall in Hshape.
    rewrite (all_zero_is_repeat Hz), (Hshape _ Hin).
    apply RadiusNeighborsFacts.posterior_zero_row. }
  exists V, (map (posterior_row C y prior) V), preds.
  repeat split; try assumption.
  - apply Forall2_map_r. apply Forall_forall. intros votes Hin Hz.
    now apply Hzero.
  - eapply Forall2_impl_in; [exact Hrows|].
    intros votes label Hin (m & Hm & Hlabel) Hz. cbv beta in Hm.
    rewrite (Hzero votes Hin Hz), (argmax_all_nan HC) in Hm. congruence.
Qed.

Lemma knn_zero_votes_give_nan_witness :
  let self :=
    {| KNeighborsClassifier._y := [0; 0; 1; 1];
       KNeighborsClassifier._classes := [5%Z; 8%Z];
       KNeighborsClassifier.weights :=
         given_weights [[1%Qc; 1%Qc; 1%Qc]; [0%Qc; 0%Qc; 0%Qc]];
       KNeighborsClassifier.class_prior := explicit_prior [frac 3 4; frac 1 4] |} in
  let dist := [[frac 0 1; frac 1 1; frac 1 1]; [frac 2 1; frac 2 1; frac 3 1]] in
  let ind := [[2; 1; 3]; [0; 1; 2]] in
  exists V out preds,
    KNeighborsClassifier.votes self dist ind = Ok V /\
    KNeighborsClassifier.predict_proba self dist ind = Ok out /\
    KNeighborsClassifier.predict self dist ind = Ok preds /\
    Forall2 (fun votes row =>
               Forall (fun v => v = 0%Qc) votes -> row = repeat NaN 2) V out /\
    Forall2 (fun votes label =>
               Forall (fun v => v = 0%Qc) votes ->
               nth_error [5%Z; 8%Z] 0 = Some label)
            V preds.
Proof.
  intros self dist ind.
  apply (@knn_zero_votes_give_nan self dist ind
           [[1%Qc; 1%Qc; 1%Qc]; [0%Qc; 0%Qc; 0%Qc]] [frac 3 4; frac 1 4] 3).
  unfold knn_query_ok. cbn.
  split; [lia|]. split.
  - split; [repeat constructor | intros [|[|c]] Hc; cbn; lia].
  - split; [repeat constructor|]. split; [repeat constructor|].
    split; [repeat constructor|]. split; [|split; reflexivity].
    left. reflexivity.
Defined.

(** ** A prior vector of the wrong length *)

(** X16.  With encoded training labels and more than one class, a prior
    vector whose length is neither the number of classes nor 1 makes
    [predict_proba] and [predict] raise the broadcasting ValueError as
    soon as the votes are collected, also for a batch without samples. *)
Theorem wrong_length_prior_raises (self : KNeighborsClassifier.t)
    (neigh_dist : matrix Qc) (neigh_ind : matrix nat)
    (prior : list Qc) (V : matrix Qc) :
  let y := KNeighborsClassifier._y self in
  let C := length (KNeighborsClassifier._classes self) in
  encoded_labels C y ->
  KNeighborsClassifier.class_prior self y = Ok prior ->
  length prior <> C -> length prior <> 1 -> C <> 1 ->
  KNeighborsClassifier.votes self neigh_dist neigh_ind = Ok V ->
  KNeighborsClassifier.predict_proba self neigh_dist neigh_ind =
    Raise (ValueError operands_not_broadcast) /\
  KNeighborsClassifier.predict self neigh_dist neigh_ind =
    Raise (ValueError operands_not_broadcast).
Proof.
  intros y C He Hprior HnC Hn1 HC1 HV.
  assert (Hproba : KNeighborsClassifier.predict_proba self neigh_dist neigh_ind =
                   Raise (ValueError operands_not_broadcast)).
  { unfold KNeighborsClassifier.predict_proba. rewrite HV. cbn [bind].
    fold y C. unfold posterior, _get_class_prior. rewrite Hprior. cbn [bind].
    rewrite (bincount_encoded He).
    unfold broadcast, broadcast_shape.
    rewrite !length_map, length_seq, Nat.eqb_refl. cbn [bind fst snd].
    rewrite ?length_map.
    apply Nat.eqb_neq in HnC, Hn1, HC1.
    rewrite (Nat.eqb_sym C (length prior)), HnC, Hn1, HC1. reflexivity. }
  split; [exact Hproba|].
  unfold KNeighborsClassifier.predict. now rewrite Hproba.
Qed.

Lemma wrong_length_prior_raises_witness :
  KNeighborsClassifier.predict
    (example_knn (explicit_prior [frac 1 2; frac 1 4; frac 1 4])) [] [] =
  Raise (ValueError operands_not_broadcast).
Proof.
  apply (@wrong_length_prior_raises
           (example_knn (explicit_prior [frac 1 2; frac 1 4; frac 1 4]))
           [] [] [frac 1 2; frac 1 4; frac 1 4] []).
  - split; [cbn; repeat constructor | intros [|[|c]] Hc; cbn in *; lia].
  - reflexivity.
  - discriminate.
  - discriminate.
  - discriminate.
  - reflexivity.
Defined.

(** * Probability rows *)








